(** * Remote shell commands over SSH: a model of [core/os/device/remotessh/commands.go]

    The development embeds the command launcher ([sshShellTarget.Start]), the
    process handle ([remoteProcess]), the tunnel accept loop
    ([binding.SetupLocalPort], [binding.doTunnel]) and the file primitives of
    [binding] as Rocq definitions, and states the properties of the design
    document against them. *)

From Stdlib Require Import ZArith Ascii String List Lia Bool.
From stdpp Require Import gmap strings list.
Import ListNotations.

Local Open Scope Z_scope.

(** ** Go's [strings] package, as far as the launcher uses it *)

Module GoStrings.

(** Go's ASCII white space: tab, line feed, vertical tab, form feed,
    carriage return, space. *)
Definition isSpace (c : ascii) : bool :=
  let n := nat_of_ascii c in
  ((9 <=? n)%nat && (n <=? 13)%nat) || (n =? 32)%nat.

(** Strings are sequences of bytes, as in Go.  [unicode.IsSpace] holds of
    the ASCII white space and of U+0085, U+00A0, U+1680, U+2000 to U+200A,
    U+2028, U+2029, U+202F, U+205F and U+3000.  [spaceRuneLen s] is the
    number of bytes of the white-space rune whose UTF-8 encoding [s] starts
    with, and 0 when it starts with none. *)
Definition spaceRuneLen (s : string) : nat :=
  match s with
  | EmptyString => 0
  | String c0 r0 =>
      if isSpace c0 then 1
      else
        match r0 with
        | EmptyString => 0
        | String c1 r1 =>
            let b0 := nat_of_ascii c0 in
            let b1 := nat_of_ascii c1 in
            if (b0 =? 194)%nat && ((b1 =? 133)%nat || (b1 =? 160)%nat) then 2
            else
              match r1 with
              | EmptyString => 0
              | String c2 _ =>
                  let b2 := nat_of_ascii c2 in
                  if ((b0 =? 225) && (b1 =? 154) && (b2 =? 128))%nat
                     || ((b0 =? 226) && (b1 =? 128)
                         && (((128 <=? b2) && (b2 <=? 138))
                             || (b2 =? 168) || (b2 =? 169) || (b2 =? 175)))%nat
                     || ((b0 =? 226) && (b1 =? 129) && (b2 =? 159))%nat
                     || ((b0 =? 227) && (b1 =? 128) && (b2 =? 128))%nat
                  then 3
                  else 0
              end
        end
  end.

(** Dropping [skip] bytes and then every leading white-space rune. *)
Fixpoint trimLeftFrom (skip : nat) (s : string) : string :=
  match s with
  | EmptyString => EmptyString
  | String _ rest =>
      match skip with
      | S k => trimLeftFrom k rest
      | O =>
          match spaceRuneLen s with
          | O => s
          | S k => trimLeftFrom k rest
          end
      end
  end.

Definition TrimLeft (s : string) : string := trimLeftFrom 0 s.

(** Whether the string is made of white-space runes only. *)
Definition allSpace (s : string) : bool :=
  match TrimLeft s with
  | EmptyString => true
  | String _ _ => false
  end.

(** Dropping the longest end of the string made of white-space runes. *)
Fixpoint TrimRight (s : string) : string :=
  match s with
  | EmptyString => EmptyString
  | String c rest => if allSpace s then EmptyString else String c (TrimRight rest)
  end.

(** [strings.TrimSpace] *)
Definition TrimSpace (s : string) : string := TrimRight (TrimLeft s).

(** [strings.Join] *)
Fixpoint Join (elems : list string) (sep : string) : string :=
  match elems with
  | [] => ""
  | [x] => x
  | x :: rest => x +:+ sep +:+ Join rest sep
  end.

End GoStrings.

(** ** The [shell] package's command descriptor

    [shell.Env] and [shell.Cmd] belong to package [shell]; the model keeps
    the fields and methods that [Start] and the primitives of [binding] use. *)

Module Shell.

(** [shell.Env]: the keys in insertion order and the key/value table. *)
Record Env : Type := mkEnv {
  keys : list string;
  values : gmap string string
}.

(** [Env.Keys] *)
Definition Keys (e : Env) : list string := keys e.

(** [Env.Get]: Go's map read, the empty string for an absent key. *)
Definition Get (e : Env) (k : string) : string := default "" (values e !! k).

Definition NewEnv : Env := mkEnv [] ∅.

(** An [io.Reader] handed to a command is modelled by the bytes it yields,
    an [io.Writer] by a name for the caller's sink. *)
Definition Reader := string.
Definition Writer := nat.

(** [shell.Cmd] *)
Record Cmd : Type := mkCmd {
  Name : string;
  Args : list string;
  Dir : string;
  Stdin : option Reader;
  Stdout : option Writer;
  Stderr : option Writer;
  Environment : Env
}.

(** [shell.Command(name, args...)] *)
Definition Command (name : string) (args : list string) : Cmd :=
  mkCmd name args "" None None None NewEnv.

(** [Cmd.Read] *)
Definition Read (r : Reader) (c : Cmd) : Cmd :=
  mkCmd (Name c) (Args c) (Dir c) (Some r) (Stdout c) (Stderr c) (Environment c).

End Shell.

Import GoStrings Shell.

(** ** The command line [Start] sends (commands.go, lines 104-123) *)

Section CommandLine.

(** [text.Quote([]string{v})[0]]: the quoting of one value.  Package [text]
    is not part of this development, so the quoting is a parameter. *)
Variable Quote : string -> string.

(** One pass of [for _, e := range env.Keys()], threading [prefix]. *)
Definition envLoop (env : Env) (prefix : string) : string :=
  fold_left
    (fun prefix e =>
       if decide (e <> "") then
         let val := Quote (Get env e) in
         prefix +:+ TrimSpace e +:+ "=" +:+ val +:+ " "
       else prefix)
    (Keys env) prefix.

(** The string handed to [session.Start]; [benv] is the binding's device
    environment [t.b.env]. *)
Definition commandLine (cmd : Cmd) (benv : Env) : string :=
  let prefix := "" in
  let prefix :=
    if decide (Dir cmd <> "") then prefix +:+ "cd " +:+ Dir cmd +:+ "; "
    else prefix in
  let prefix := envLoop (Environment cmd) prefix in
  let prefix := envLoop benv prefix in
  prefix +:+ Name cmd +:+ " " +:+ Join (Args cmd) " ".

(** The assignments one environment contributes, in order: the trimmed key
    and the unquoted value of every key that is not empty. *)
Definition envEntries (env : Env) : list (string * string) :=
  map (fun e => (TrimSpace e, Get env e))
      (filter (fun e => e <> "") (Keys env)).

(** All assignments of the line, in the order they are written. *)
Definition sentEntries (cmd : Cmd) (benv : Env) : list (string * string) :=
  envEntries (Environment cmd) ++ envEntries benv.

(** The text of one assignment. *)
Definition renderEntry (kv : string * string) : string :=
  fst kv +:+ "=" +:+ Quote (snd kv) +:+ " ".

Definition renderEntries (l : list (string * string)) : string :=
  fold_right (fun kv acc => renderEntry kv +:+ acc) "" l.

(** The [cd] part of the line as the code writes it. *)
Definition cdPrefix (cmd : Cmd) : string :=
  if decide (Dir cmd <> "") then "cd " +:+ Dir cmd +:+ "; " else "".

End CommandLine.

(** ** The life of one remote process (commands.go, lines 38-129)

    [Start] runs on the caller's thread and spawns up to three relay tasks
    with [crash.Go]; the caller then calls [Wait].  The interleavings are
    modelled by a step function over actions: the caller's thread executes
    its next statement, or one relay task moves on. *)

Module Process.

Inductive stream : Type := StdinS | StdoutS | StderrS.

(** A relay task: not spawned; inside [io.Copy]; [io.Copy] has returned;
    the task has run to its end ([p.wg.Done()] for stdout and stderr, the
    deferred [stdin.Close()] for stdin). *)
Inductive relay : Type := Absent | Copying | Copied | Finished.

(** Why [Start] returned [nil, err]. *)
Inductive failure : Type :=
| NewSessionFailed
| PipeFailed (st : stream)
| StartRejected.

(** The statement the caller's thread is at. *)
Inductive pc : Type :=
| pcNewSession                 (* line 60 *)
| pcStdin                      (* line 69 *)
| pcStdout                     (* line 80 *)
| pcStderr                     (* line 92 *)
| pcSessionStart               (* lines 104-124 *)
| pcReturnedErr (f : failure)  (* Start returned nil, err *)
| pcReturnedProc               (* Start returned p, nil *)
| pcSessionWait                (* Wait, line 49: in r.session.Wait() *)
| pcWgWait                     (* Wait, line 50: in r.wg.Wait() *)
| pcWaitReturned.              (* Wait returned *)

Record state : Type := mkState {
  at_pc : pc;
  session_open : bool;       (* a channel was opened and not closed *)
  command_started : bool;    (* session.Start accepted the command line *)
  wg : Z;                    (* the counter of p.wg *)
  stdin_relay : relay;
  stdout_relay : relay;
  stderr_relay : relay
}.

Definition init : state := mkState pcNewSession false false 0 Absent Absent Absent.

Definition goto (p : pc) (s : state) : state :=
  mkState p (session_open s) (command_started s) (wg s)
          (stdin_relay s) (stdout_relay s) (stderr_relay s).

Definition open_session (s : state) : state :=
  mkState (at_pc s) true (command_started s) (wg s)
          (stdin_relay s) (stdout_relay s) (stderr_relay s).

Definition start_command (s : state) : state :=
  mkState (at_pc s) (session_open s) true (wg s)
          (stdin_relay s) (stdout_relay s) (stderr_relay s).

(** [p.wg.Add(d)]; [p.wg.Done()] is [wg_add (-1)]. *)
Definition wg_add (d : Z) (s : state) : state :=
  mkState (at_pc s) (session_open s) (command_started s) (wg s + d)
          (stdin_relay s) (stdout_relay s) (stderr_relay s).

Definition relay_of (s : state) (st : stream) : relay :=
  match st with
  | StdinS => stdin_relay s
  | StdoutS => stdout_relay s
  | StderrS => stderr_relay s
  end.

Definition set_relay (st : stream) (r : relay) (s : state) : state :=
  match st with
  | StdinS => mkState (at_pc s) (session_open s) (command_started s) (wg s)
                      r (stdout_relay s) (stderr_relay s)
  | StdoutS => mkState (at_pc s) (session_open s) (command_started s) (wg s)
                      (stdin_relay s) r (stderr_relay s)
  | StderrS => mkState (at_pc s) (session_open s) (command_started s) (wg s)
                      (stdin_relay s) (stdout_relay s) r
  end.

(** Whether the descriptor supplies the stream ([cmd.Stdin != nil], ...). *)
Definition given {A : Type} (x : option A) : bool :=
  match x with
  | Some _ => true
  | None => false
  end.

Definition supplied (cmd : Cmd) (st : stream) : bool :=
  match st with
  | StdinS => given (Stdin cmd)
  | StdoutS => given (Stdout cmd)
  | StderrS => given (Stderr cmd)
  end.

(** Whether the relay of the stream is registered in [p.wg]: lines 85 and
    97 call [p.wg.Add(1)], the stdin block (lines 69-78) does not. *)
Definition counted (st : stream) : bool :=
  match st with
  | StdinS => false
  | StdoutS | StderrS => true
  end.

(** [Main ok]: the caller's thread executes the statement it is at; [ok]
    is the outcome of the transport call the statement makes, when it
    makes one that can fail.  [CopyReturns st]: the [io.Copy] of a relay
    returns.  [RelayExits st]: the relay runs to its end. *)
Inductive action : Type :=
| Main (ok : bool)
| CopyReturns (st : stream)
| RelayExits (st : stream).

(** One of the three [if cmd.X != nil] blocks of [Start]. *)
Definition wire (cmd : Cmd) (st : stream) (next : pc) (ok : bool) (s : state)
  : state :=
  if supplied cmd st then
    if ok then
      let s := if counted st then wg_add 1 s else s in
      goto next (set_relay st Copying s)
    else goto (pcReturnedErr (PipeFailed st)) s
  else goto next s.

Definition step (cmd : Cmd) (a : action) (s : state) : option state :=
  match a with
  | Main ok =>
      match at_pc s with
      | pcNewSession =>
          if ok then Some (goto pcStdin (open_session s))
          else Some (goto (pcReturnedErr NewSessionFailed) s)
      | pcStdin => Some (wire cmd StdinS pcStdout ok s)
      | pcStdout => Some (wire cmd StdoutS pcStderr ok s)
      | pcStderr => Some (wire cmd StderrS pcSessionStart ok s)
      | pcSessionStart =>
          if ok then Some (goto pcReturnedProc (start_command s))
          else Some (goto (pcReturnedErr StartRejected) s)
      | pcReturnedErr _ => None
      | pcReturnedProc => Some (goto pcSessionWait s)
      | pcSessionWait => Some (goto pcWgWait s)
      | pcWgWait => if wg s =? 0 then Some (goto pcWaitReturned s) else None
      | pcWaitReturned => None
      end
  | CopyReturns st =>
      match relay_of s st with
      | Copying => Some (set_relay st Copied s)
      | _ => None
      end
  | RelayExits st =>
      match relay_of s st with
      | Copied =>
          let s := if counted st then wg_add (-1) s else s in
          Some (set_relay st Finished s)
      | _ => None
      end
  end.

(** A schedule, run from a state; [None] when an action is not enabled. *)
Fixpoint run (cmd : Cmd) (tr : list action) (s : state) : option state :=
  match tr with
  | [] => Some s
  | a :: tr' =>
      match step cmd a s with
      | Some s' => run cmd tr' s'
      | None => None
      end
  end.

(** A relay that was spawned and has not run to its end. *)
Definition running (r : relay) : bool :=
  match r with
  | Copying | Copied => true
  | Absent | Finished => false
  end.

(** [Start] has returned a process handle. *)
Definition started (p : pc) : bool :=
  match p with
  | pcReturnedProc | pcSessionWait | pcWgWait | pcWaitReturned => true
  | _ => false
  end.

(** *** The invariant of the reachable states *)

Definition absent (r : relay) : bool :=
  match r with
  | Absent => true
  | _ => false
  end.

(** Whether, at this statement, the block of [Start] for the stream has
    been executed without error. *)
Definition wired_at (p : pc) (st : stream) : bool :=
  match p with
  | pcNewSession | pcStdin
  | pcReturnedErr NewSessionFailed | pcReturnedErr (PipeFailed StdinS) => false
  | pcStdout | pcReturnedErr (PipeFailed StdoutS) =>
      match st with StdinS => true | _ => false end
  | pcStderr | pcReturnedErr (PipeFailed StderrS) =>
      match st with StderrS => false | _ => true end
  | _ => true
  end.

(** Whether, at this statement, [NewSession] has returned a session. *)
Definition opened_at (p : pc) : bool :=
  match p with
  | pcNewSession | pcReturnedErr NewSessionFailed => false
  | _ => true
  end.

Record inv (cmd : Cmd) (s : state) : Prop := mkInv {
  inv_wg : wg s = Z.b2z (running (stdout_relay s)) + Z.b2z (running (stderr_relay s));
  inv_in : negb (absent (stdin_relay s))
           = wired_at (at_pc s) StdinS && supplied cmd StdinS;
  inv_out : negb (absent (stdout_relay s))
            = wired_at (at_pc s) StdoutS && supplied cmd StdoutS;
  inv_err : negb (absent (stderr_relay s))
            = wired_at (at_pc s) StderrS && supplied cmd StderrS;
  inv_open : session_open s = opened_at (at_pc s);
  inv_started : command_started s = started (at_pc s);
  inv_returned : at_pc s = pcWaitReturned -> wg s = 0
}.

(** *** Schedules used as examples *)

(** The relay of a supplied stream runs to its end. *)
Definition drain (cmd : Cmd) (st : stream) : list action :=
  if supplied cmd st then [CopyReturns st; RelayExits st] else [].

(** [Start] succeeds, the stdout and stderr relays run to their end, the
    caller calls [Wait], the remote command exits and [Wait] returns; the
    stdin relay is never scheduled. *)
Definition scheduleWithoutStdin (cmd : Cmd) : list action :=
  [Main true; Main true; Main true; Main true; Main true]
    ++ drain cmd StdoutS ++ drain cmd StderrS
    ++ [Main true; Main true; Main true].

(** A command with all three streams. *)
Definition cmdAllStreams : Cmd :=
  mkCmd "cat" [] "" (Some "input") (Some 1%nat) (Some 2%nat) NewEnv.

End Process.

(** ** The tunnel accept loop (commands.go, lines 201-280) *)

Module Tunnel.

Definition conn := nat.
Definition error := string.

(** What the loop's goroutine has done so far. *)
Record state : Type := mkState {
  listener_open : bool;
  closed : list conn;                (* connections closed by the loop *)
  forwarding : list (conn * conn)    (* pairs handed to the copy tasks *)
}.

Definition init : state := mkState true [] [].

(** One return of [listener.Accept()], with the result the dial of that
    connection will have. *)
Inductive accept : Type :=
| AcceptErr (e : error)
| Accepted (local : conn) (dial : error + conn).

Definition close_conn (c : conn) (s : state) : state :=
  mkState (listener_open s) (closed s ++ [c]) (forwarding s).

Definition close_listener (s : state) : state :=
  mkState false (closed s) (forwarding s).

Definition forward (local remote : conn) (s : state) : state :=
  mkState (listener_open s) (closed s) (forwarding s ++ [(local, remote)]).

(** [binding.doTunnel]: the returned error and the state after. *)
Definition doTunnel (local : conn) (dial : error + conn) (s : state)
  : option error * state :=
  match dial with
  | inl err => (Some err, close_conn local s)
  | inr remote => (None, forward local remote s)
  end.

Inductive loop : Type :=
| Exited        (* the goroutine returned; the deferred Close has run *)
| InAccept.     (* blocked in listener.Accept() *)

(** The goroutine of lines 266-277, against the accepts it will see. *)
Fixpoint acceptLoop (evs : list accept) (s : state) : loop * state :=
  match evs with
  | [] => (InAccept, s)
  | AcceptErr _ :: _ => (Exited, close_listener s)
  | Accepted local dial :: rest =>
      match doTunnel local dial s with
      | (Some _, s') => (Exited, close_listener s')
      | (None, s') => acceptLoop rest s'
      end
  end.

Definition dial_ok (a : accept) : bool :=
  match a with
  | Accepted _ (inr _) => true
  | _ => false
  end.

Definition pair_of (a : accept) : list (conn * conn) :=
  match a with
  | Accepted l (inr r) => [(l, r)]
  | _ => []
  end.

End Tunnel.

(** ** File and directory primitives (commands.go, lines 136-199, 353-373) *)

Module Device.

Definition error := string.

(** [device.OSKind]: the three kinds the code names, and every other value
    of the enumeration. *)
Inductive OSKind : Type := Linux | OSX | Windows | OtherOS.

Global Instance OSKind_eq_dec : EqDecision OSKind.
Proof. solve_decision. Defined.

(** The fields of [binding] the primitives read. *)
Record binding : Type := mkBinding {
  env : Env;
  os : OSKind
}.

(** What reaches the remote side for one command: the line given to
    [session.Start] and the bytes pumped into its standard input. *)
Record launch : Type := mkLaunch {
  line : string;
  input : option Reader
}.

(** The commands launched so far, oldest first. *)
Definition world := list launch.

(** A computation that may launch commands. *)
Definition M (A : Type) : Type := world -> A * world.

Definition ret {A : Type} (a : A) : M A := fun w => (a, w).

Definition bind {A B : Type} (m : M A) (k : A -> M B) : M B :=
  fun w => let (a, w') := m w in k a w'.

(** [panic(v)] unwinds the caller; a function that may panic yields an
    [outcome]. *)
Inductive panicValue : Type := UnsupportedOS (k : OSKind).

Inductive outcome (A : Type) : Type :=
| Returned (a : A)
| Panicked (v : panicValue).
Arguments Returned {A} a.
Arguments Panicked {A} v.

(** [os.FileMode], a 32-bit word. *)
Definition FileMode := Z.

(** [FileMode.Perm]: [m & ModePerm], [ModePerm] being [0777]. *)
Definition Perm (m : FileMode) : FileMode := Z.land m 511.

Definition octDigit (d : Z) : ascii := ascii_of_nat (48 + Z.to_nat d).

(** The digits of [n] in base 8, most significant first. *)
Fixpoint octalDigits (fuel : nat) (n : Z) (acc : string) : string :=
  match fuel with
  | O => acc
  | S fuel' =>
      let acc' := String (octDigit (n mod 8)) acc in
      if n / 8 =? 0 then acc' else octalDigits fuel' (n / 8) acc'
  end.

Fixpoint spaces (n : nat) : string :=
  match n with
  | O => ""
  | S n' => String " " (spaces n')
  end.

(** [fmt.Sprintf("%4o", m)] for a 32-bit [m]: octal, right-aligned in a
    field of width four, padded with spaces. *)
Definition Sprintf_4o (m : Z) : string :=
  let digits := octalDigits 11 m "" in
  spaces (4 - String.length digits) +:+ digits.

(** Reading a field of octal digits back, blanks skipped. *)
Fixpoint octalValueFrom (acc : Z) (s : string) : Z :=
  match s with
  | EmptyString => acc
  | String c rest =>
      if isSpace c then octalValueFrom acc rest
      else octalValueFrom (8 * acc + (Z.of_nat (nat_of_ascii c) - 48)) rest
  end.

Definition octalValue (s : string) : Z := octalValueFrom 0 s.

(** What holds of the field [Sprintf_4o] writes for [n]: four characters,
    the first a blank, reading back as [n]. *)
Definition permFieldOk (n : Z) : bool :=
  (String.length (Sprintf_4o n) =? 4)%nat
  && (octalValue (Sprintf_4o n) =? n)
  && match Sprintf_4o n with
     | String c _ => Ascii.eqb c " "
     | EmptyString => false
     end.

(** The mode as the design document words it: four octal digits. *)
Definition fourDigitOctal (n : Z) : string :=
  String (octDigit (n / 512 mod 8))
    (String (octDigit (n / 64 mod 8))
       (String (octDigit (n / 8 mod 8))
          (String (octDigit (n mod 8)) EmptyString))).

(** The command of [WriteFile] as the design document words it. *)
Definition writeFileContract (destPath : string) (mode : FileMode) : string :=
  "cat > " +:+ destPath +:+ "; chmod " +:+ fourDigitOctal (Perm mode)
    +:+ " " +:+ destPath.

(** The double quote character, as a string. *)
Definition dquote : string := String (ascii_of_nat 34) EmptyString.

Section Primitives.

(** The quoting of [text.Quote], as in [commandLine]. *)
Variable Quote : string -> string.

(** The remote side: the trimmed output and the error that [Cmd.Call]
    reports for a launch, given the launches before it. *)
Variable remote : world -> launch -> string * option error.

(** The local host: [runtime.GOOS], [os.Open] and [os.Stat]. *)
Variable GOOS : string.
Variable os_Open : string -> error + Reader.
Variable os_Stat : string -> error + FileMode.

(** [binding.Shell]: the command, bound to this device. *)
Definition Shell (b : binding) (name : string) (args : list string) : Cmd :=
  Command name args.

(** [Cmd.Call] on the SSH target: [Start] composes the line with the
    device environment and the remote side answers. *)
Definition Call (b : binding) (cmd : Cmd) : M (string * option error) :=
  fun w =>
    let l := mkLaunch (commandLine Quote cmd (env b)) (Stdin cmd) in
    (remote w l, w ++ [l]).

Definition destroyPosixDirectory (b : binding) (dir : string) : M unit :=
  bind (Call b (Shell b "rm" ["-rf"; dir])) (fun _ => ret tt).

Definition createPosixTempDirectory (b : binding)
  : M (string * option (M unit) * option error) :=
  bind (Call b (Shell b "mktemp" ["-d"])) (fun r =>
    match snd r with
    | Some err => ret ("", None, Some err)
    | None => ret (fst r, Some (destroyPosixDirectory b (fst r)), None)
    end).

Definition createWindowsTempDirectory (b : binding)
  : M (string * option (M unit) * option error) :=
  ret ("", None, Some "Windows remote targets are not yet supported.").

Definition MakeTempDir (b : binding)
  : world -> outcome (string * option (M unit) * option error) * world :=
  fun w =>
    match os b with
    | Linux | OSX =>
        let (r, w') := createPosixTempDirectory b w in (Returned r, w')
    | Windows =>
        let (r, w') := createWindowsTempDirectory b w in (Returned r, w')
    | OtherOS => (Panicked (UnsupportedOS (os b)), w)
    end.

Definition WriteFile (b : binding) (contents : Reader) (mode : FileMode)
                     (destPath : string) : M (option error) :=
  let perm := Sprintf_4o (Perm mode) in
  bind (Call b (Read contents
                  (Shell b "cat" [">"; destPath; "; chmod "; perm; " "; destPath])))
       (fun r => ret (snd r)).

Definition PushFile (b : binding) (source dest : string) : M (option error) :=
  match os_Open source with
  | inl err => ret (Some err)
  | inr infile =>
      match os_Stat source with
      | inl err => ret (Some err)
      | inr permission =>
          let mode := permission in
          let mode :=
            if (bool_decide (os b = Linux) || bool_decide (os b = OSX))
               && bool_decide (GOOS = "windows")
            then Z.lor mode 360   (* 0550 *)
            else mode in
          WriteFile b infile mode dest
      end
  end.

Definition IsDirectory (b : binding) (inPath : string) : M (bool * option error) :=
  bind (Call b (Shell b "cd" [dquote +:+ inPath +:+ dquote])) (fun r =>
    match snd r with
    | Some _ => ret (false, None)
    | None => ret (true, None)
    end).

Definition IsFile (b : binding) (inPath : string) : M (bool * option error) :=
  bind (IsDirectory b inPath) (fun d =>
    if bool_decide (snd d = None) && fst d then ret (false, None)
    else
      bind (Call b (Shell b "stat" [dquote +:+ inPath +:+ dquote])) (fun r =>
        match snd r with
        | Some _ => ret (false, None)
        | None => ret (true, None)
        end)).

End Primitives.

End Device.

(** ** Sample descriptors *)

(** An environment built from its entries, in order. *)
Definition sampleEnv (kvs : list (string * string)) : Env :=
  mkEnv (map fst kvs) (list_to_map kvs).

(** A command that sets [A], on a device whose defaults set [A] too. *)
Definition cmdSetsA : Cmd :=
  mkCmd "prog" [] "" None None None (sampleEnv [("A", "1")]).
Definition deviceSetsA : Env := sampleEnv [("A", "2")].

(** A command with a working directory that holds a space. *)
Definition cmdInDir : Cmd := mkCmd "ls" ["-l"] "my dir" None None None NewEnv.

(** The wire contract as the design document words it: [cd DIR; ], one
    [KEY=VAL ] per entry of the effective environment, [NAME ARG...], with
    DIR and every VAL quoted.  [effective] lists the effective environment. *)
Definition wireContract (Quote : string -> string)
    (effective : list (string * string)) (cmd : Cmd) : string :=
  (if decide (Dir cmd <> "") then "cd " +:+ Quote (Dir cmd) +:+ "; " else "")
    +:+ renderEntries Quote effective
    +:+ Name cmd +:+ " " +:+ Join (Args cmd) " ".

(** A dial that fails, followed by an accept whose dial would succeed. *)
Definition acceptsAfterFailedDial : list Tunnel.accept :=
  [Tunnel.Accepted 1%nat (inl "connection refused");
   Tunnel.Accepted 2%nat (inr 3%nat)].

(** A Linux device with no default environment, and local hosts on which
    every file opens and has mode [0644]. *)
Definition linuxDevice : Device.binding := Device.mkBinding NewEnv Device.Linux.
Definition otherDevice : Device.binding := Device.mkBinding NewEnv Device.OtherOS.
Definition localOpen : string -> Device.error + Reader := fun _ => inr "bytes".
Definition localStat : string -> Device.error + Device.FileMode := fun _ => inr 420.

(** A remote side on which every command succeeds with no output. *)
Definition quietRemote : Device.world -> Device.launch -> string * option Device.error :=
  fun _ _ => ("", None).

(** ** The copy task of a tunnel (commands.go, lines 211-240)

    The closure [copy] of [doTunnel] reads into a buffer and writes what it
    read, until a read reports an error or end of data, or a write fails or
    is short.  Each turn of the loop is given by what the two connections
    answer: the bytes and the error of [reader.Read], and the count and the
    error of [writer.Write], which is called only when bytes were read. *)

Module Pump.

(** Go's [error] values as the loop tells them apart. *)
Inductive error : Type := EOF | Err (msg : string).

Global Instance error_eq_dec : EqDecision error.
Proof. solve_decision. Defined.

Record turn : Type := mkTurn {
  data : list Byte.byte;   (* buf[0:nr], what Read put in the buffer *)
  er : option error;       (* the error of Read *)
  nw : nat;                (* the count Write would report *)
  ew : option error        (* the error Write would report *)
}.

(** How the [for] loop is left: by [break], with the value of [err]; or not
    at all, the task waiting in [reader.Read] for what the turns do not
    tell. *)
Inductive ending : Type :=
| Broke (err : option error)
| InRead.

(** The [for] loop; [sent] are the bytes the writer has taken so far. *)
Fixpoint copyLoop (turns : list turn) (sent : list Byte.byte)
  : ending * list Byte.byte :=
  match turns with
  | [] => (InRead, sent)
  | t :: rest =>
      let nr := length (data t) in
      let afterWrite sent' :=
        match er t with
        | Some e => (Broke (if decide (e <> EOF) then Some e else None), sent')
        | None => copyLoop rest sent'
        end in
      if (0 <? nr)%nat then
        let sent' := sent ++ take (nw t) (data t) in
        match ew t with
        | Some e => (Broke (Some e), sent')
        | None =>
            if negb (nr =? nw t)%nat
            then (Broke (Some (Err "short write")), sent')
            else afterWrite sent'
        end
      else afterWrite sent
  end.

(** What the task has done when it stops running. *)
Record report : Type := mkReport {
  delivered : list Byte.byte;  (* bytes taken by the writer *)
  writer_closed : bool;      (* writer.Close() was called *)
  logged : option error;     (* the error given to log.E *)
  wg_done : bool             (* wg.Done() was called *)
}.

(** The closure [copy]. *)
Definition copy (turns : list turn) : report :=
  match copyLoop turns [] with
  | (Broke err, sent) => mkReport sent true err true
  | (InRead, sent) => mkReport sent false None false
  end.

(** All bytes read over the turns. *)
Definition bytesRead (turns : list turn) : list Byte.byte :=
  concat (map data turns).

(** A turn whose write, if there is one, takes all that was read. *)
Definition writesAll (t : turn) : Prop :=
  data t = [] \/ (ew t = None /\ nw t = length (data t)).

(** A turn after which the loop goes on: the read reports no error and the
    write takes all. *)
Definition goesOn (t : turn) : Prop := er t = None /\ writesAll t.

End Pump.

(** ** One forwarding session (commands.go, lines 209-251)

    After a successful dial [doTunnel] sets the counter to two and starts
    two copy tasks and a supervisor.  The supervisor waits for the counter
    and then runs its deferred calls, last first: [remote.Close()], then
    [local.Close()]. *)

Module Forwarding.

(** The direction of a copy task, named by the connection it writes to:
    [copy(local, remote)] is [ToLocal]. *)
Inductive direction : Type := ToLocal | ToRemote.

(** A copy task: in its loop; past [writer.Close()]; past [wg.Done()]. *)
Inductive task : Type := Looping | WriterClosed | TaskDone.

(** The supervisor: in [wg.Wait()]; past it; past [remote.Close()]; past
    [local.Close()]. *)
Inductive supervisor : Type := Waiting | Woken | RemoteClosed | BothClosed.

Record state : Type := mkState {
  wg : Z;
  to_local : task;
  to_remote : task;
  sup : supervisor;
  local_closes : nat;      (* calls of local.Close() so far *)
  remote_closes : nat      (* calls of remote.Close() so far *)
}.

(** The state when [doTunnel] returns [nil]. *)
Definition init : state := mkState 2 Looping Looping Waiting 0 0.

Inductive action : Type :=
| LoopEnds (d : direction)      (* the loop breaks; writer.Close() *)
| TaskEnds (d : direction)      (* wg.Done() *)
| Supervise.                    (* the supervisor's next statement *)

Definition task_of (s : state) (d : direction) : task :=
  match d with
  | ToLocal => to_local s
  | ToRemote => to_remote s
  end.

Definition step (a : action) (s : state) : option state :=
  match a with
  | LoopEnds ToLocal =>
      match to_local s with
      | Looping => Some (mkState (wg s) WriterClosed (to_remote s) (sup s)
                                 (S (local_closes s)) (remote_closes s))
      | _ => None
      end
  | LoopEnds ToRemote =>
      match to_remote s with
      | Looping => Some (mkState (wg s) (to_local s) WriterClosed (sup s)
                                 (local_closes s) (S (remote_closes s)))
      | _ => None
      end
  | TaskEnds ToLocal =>
      match to_local s with
      | WriterClosed => Some (mkState (wg s - 1) TaskDone (to_remote s) (sup s)
                                      (local_closes s) (remote_closes s))
      | _ => None
      end
  | TaskEnds ToRemote =>
      match to_remote s with
      | WriterClosed => Some (mkState (wg s - 1) (to_local s) TaskDone (sup s)
                                      (local_closes s) (remote_closes s))
      | _ => None
      end
  | Supervise =>
      match sup s with
      | Waiting =>
          if wg s =? 0
          then Some (mkState (wg s) (to_local s) (to_remote s) Woken
                             (local_closes s) (remote_closes s))
          else None
      | Woken => Some (mkState (wg s) (to_local s) (to_remote s) RemoteClosed
                               (local_closes s) (S (remote_closes s)))
      | RemoteClosed => Some (mkState (wg s) (to_local s) (to_remote s) BothClosed
                                      (S (local_closes s)) (remote_closes s))
      | BothClosed => None
      end
  end.

Fixpoint run (tr : list action) (s : state) : option state :=
  match tr with
  | [] => Some s
  | a :: tr' =>
      match step a s with
      | Some s' => run tr' s'
      | None => None
      end
  end.

(** Whether the task still has [wg.Done()] before it. *)
Definition pending (t : task) : Z :=
  match t with
  | TaskDone => 0
  | _ => 1
  end.

(** Calls of [Close] a copy task has made on its writer. *)
Definition closedByTask (t : task) : nat :=
  match t with
  | Looping => 0
  | _ => 1
  end.

Definition remoteClosedBySup (u : supervisor) : nat :=
  match u with
  | RemoteClosed | BothClosed => 1
  | _ => 0
  end.

Definition localClosedBySup (u : supervisor) : nat :=
  match u with
  | BothClosed => 1
  | _ => 0
  end.

(** The invariant of the reachable states. *)
Record inv (s : state) : Prop := mkInv {
  inv_wg : wg s = pending (to_local s) + pending (to_remote s);
  inv_sup : sup s <> Waiting -> wg s = 0;
  inv_local : local_closes s
              = (closedByTask (to_local s) + localClosedBySup (sup s))%nat;
  inv_remote : remote_closes s
               = (closedByTask (to_remote s) + remoteClosedBySup (sup s))%nat
}.

End Forwarding.

(** ** Schedules that let [Wait] return *)

Module Schedules.

Import Process.

(** What is left for a relay to do. *)
Definition relayRest (r : relay) (st : stream) : list action :=
  match r with
  | Copying => [CopyReturns st; RelayExits st]
  | Copied => [RelayExits st]
  | Absent | Finished => []
  end.

(** What is left for the caller's thread to do once [Start] has returned a
    process: call [Wait], come back from [session.Wait()], come back from
    [wg.Wait()]. *)
Definition callerRest (p : pc) : list action :=
  match p with
  | pcReturnedProc => [Main true; Main true; Main true]
  | pcSessionWait => [Main true; Main true]
  | pcWgWait => [Main true]
  | _ => []
  end.

(** The stdout and stderr relays run to their end, then the caller. *)
Definition finish (s : state) : list action :=
  relayRest (stdout_relay s) StdoutS
    ++ relayRest (stderr_relay s) StderrS
    ++ callerRest (at_pc s).

End Schedules.

(** ** More primitives of [binding] (commands.go, lines 282-292, 319-351, 380-382) *)

Module DeviceMore.

Import Device.



(** The launch of a path probe: the assignments of the device environment,
    the utility, a blank, and the path between double quotes; no input. *)
Definition probeLaunch (Quote : string -> string) (b : binding)
    (utility inPath : string) : launch :=
  mkLaunch (renderEntries Quote (envEntries (env b))
              +:+ utility +:+ " " +:+ dquote +:+ inPath +:+ dquote)
           None.

Section MorePrimitives.

Variable Quote : string -> string.
Variable remote : world -> launch -> string * option error.

(** The lines a [bufio.Scanner] yields for a text, in order. *)
Variable scanLines : string -> list string.


(** [binding.TempFile] *)
Definition TempFile (b : binding)
  : M (string * option (M unit) * option error) :=
  bind (Call Quote remote b (Shell b "mktemp" [])) (fun r =>
    match snd r with
    | Some err => ret ("", None, Some err)
    | None =>
        ret (fst r,
             Some (bind (Call Quote remote b (Shell b "rm" ["-f"; fst r]))
                        (fun _ => ret tt)),
             None)
    end).




End MorePrimitives.

End DeviceMore.

(** ** The output of a remote process (commands.go, lines 80-102, 48-52)

    The stdout and stderr relays run [io.Copy] from the pipe of the session
    to the caller's stream and discard its result.  This model adds the
    bytes to the model of the process: what the remote command has written
    to a stream, what of it waits in the pipe, and what [io.Copy] has handed
    to the caller's stream.  [io.Copy] returns without error when a read
    reports the end of the data, which a pipe does once it is empty and the
    remote side has closed the stream; it returns an error when a read
    fails, or a write to the caller's stream fails or is short. *)

Module Output.

Import Process.

Inductive ostream : Type := Out | Err.

Definition stream_of (o : ostream) : stream :=
  match o with
  | Out => StdoutS
  | Err => StderrS
  end.

(** How [io.Copy] returned. *)
Inductive copyEnd : Type := SawEOF | CopyFailed.

Record pipe : Type := mkPipe {
  written : list Byte.byte;    (* all the remote command wrote to the stream *)
  queued : list Byte.byte;     (* written and not yet read by io.Copy *)
  delivered : list Byte.byte;  (* taken by the caller's stream *)
  closed : bool;               (* the remote side has closed the stream *)
  ended : option copyEnd       (* set when io.Copy has returned *)
}.

Definition emptyPipe : pipe := mkPipe [] [] [] false None.

Record state : Type := mkState {
  base : Process.state;
  out : pipe;
  err : pipe
}.

Definition init : state := mkState Process.init emptyPipe emptyPipe.

Definition pipe_of (s : state) (o : ostream) : pipe :=
  match o with
  | Out => out s
  | Err => err s
  end.

Definition set_pipe (o : ostream) (p : pipe) (s : state) : state :=
  match o with
  | Out => mkState (base s) p (err s)
  | Err => mkState (base s) (out s) p
  end.

Definition set_base (b : Process.state) (s : state) : state :=
  mkState b (out s) (err s).

(** [Caller ok], [StdinCopyReturns] and [RelayExits st] are the actions of
    the process model.  [Moves o k]: [io.Copy] reads [k] bytes from the pipe
    and the caller's stream takes them all.  [SeesEOF o]: a read reports the
    end of the data and [io.Copy] returns [nil].  [CopyFails o k j]:
    [io.Copy] reads [k] bytes, the caller's stream takes [j] of them, and
    [io.Copy] returns an error (with [k = 0], the read itself failed).
    [RemoteWrites o bs] and [RemoteCloses o]: the remote command writes to
    the stream, or closes it (as it does when it exits). *)
Inductive action : Type :=
| Caller (ok : bool)
| StdinCopyReturns
| Moves (o : ostream) (k : nat)
| SeesEOF (o : ostream)
| CopyFails (o : ostream) (k j : nat)
| RelayExits (st : stream)
| RemoteWrites (o : ostream) (bs : list Byte.byte)
| RemoteCloses (o : ostream).

(** The action of the process model that an action stands for, if any. *)
Definition erase (a : action) : option Process.action :=
  match a with
  | Caller ok => Some (Main ok)
  | StdinCopyReturns => Some (CopyReturns StdinS)
  | SeesEOF o | CopyFails o _ _ => Some (CopyReturns (stream_of o))
  | RelayExits st => Some (Process.RelayExits st)
  | Moves _ _ | RemoteWrites _ _ | RemoteCloses _ => None
  end.

(** What an action does to the pipe of its stream, when it is enabled
    there. *)
Definition pipe_step (a : action) (running_copy started : bool) (p : pipe)
  : option pipe :=
  match a with
  | Moves _ k =>
      if running_copy && (1 <=? k)%nat && (k <=? length (queued p))%nat
      then Some (mkPipe (written p) (drop k (queued p))
                        (delivered p ++ take k (queued p)) (closed p) (ended p))
      else None
  | SeesEOF _ =>
      if closed p && (length (queued p) =? 0)%nat
      then Some (mkPipe (written p) (queued p) (delivered p) (closed p)
                        (Some SawEOF))
      else None
  | CopyFails _ k j =>
      if (j <=? k)%nat && (k <=? length (queued p))%nat
      then Some (mkPipe (written p) (drop k (queued p))
                        (delivered p ++ take j (queued p)) (closed p)
                        (Some CopyFailed))
      else None
  | RemoteWrites _ bs =>
      if started && negb (closed p)
      then Some (mkPipe (written p ++ bs) (queued p ++ bs) (delivered p)
                        (closed p) (ended p))
      else None
  | RemoteCloses _ =>
      Some (mkPipe (written p) (queued p) (delivered p) true (ended p))
  | Caller _ | StdinCopyReturns | RelayExits _ => Some p
  end.

(** The stream an action touches. *)
Definition touched (a : action) : option ostream :=
  match a with
  | Moves o _ | SeesEOF o | CopyFails o _ _
  | RemoteWrites o _ | RemoteCloses o => Some o
  | Caller _ | StdinCopyReturns | RelayExits _ => None
  end.

Definition copying (r : relay) : bool :=
  match r with
  | Copying => true
  | _ => false
  end.

Definition step (cmd : Cmd) (a : action) (s : state) : option state :=
  let after_base :=
    match erase a with
    | Some pa => Process.step cmd pa (base s)
    | None => Some (base s)
    end in
  match after_base with
  | None => None
  | Some b' =>
      match touched a with
      | None => Some (set_base b' s)
      | Some o =>
          match pipe_step a (copying (relay_of (base s) (stream_of o)))
                          (command_started (base s)) (pipe_of s o) with
          | Some p' => Some (set_pipe o p' (set_base b' s))
          | None => None
          end
      end
  end.

Fixpoint run (cmd : Cmd) (tr : list action) (s : state) : option state :=
  match tr with
  | [] => Some s
  | a :: tr' =>
      match step cmd a s with
      | Some s' => run cmd tr' s'
      | None => None
      end
  end.

(** What the reachable states keep true of a relay and its pipe. *)
Record pipe_inv (r : relay) (p : pipe) : Prop := mkPipeInv {
  pi_ended : match r with
             | Absent | Copying => ended p = None
             | Copied | Finished => ended p <> None
             end;
  pi_eof : ended p = Some SawEOF -> queued p = [] /\ closed p = true;
  pi_all : ended p <> Some CopyFailed -> written p = delivered p ++ queued p
}.

Record inv (cmd : Cmd) (s : state) : Prop := mkInv {
  inv_base : Process.inv cmd (base s);
  inv_out : pipe_inv (stdout_relay (base s)) (out s);
  inv_err : pipe_inv (stderr_relay (base s)) (err s)
}.

(** A command that supplies an output stream only. *)
Definition cmdStdout : Cmd :=
  mkCmd "echo" ["hi"] "" None (Some 1%nat) None NewEnv.

(** The bytes of [hi] and a line feed. *)
Definition hiLine : list Byte.byte := [Byte.x68; Byte.x69; Byte.x0a].

(** [Start] succeeds, the command writes a line and exits, the relay copies
    the line and sees the end of the data, and the caller's [Wait]
    returns. *)
Definition scheduleCopied : list action :=
  [Caller true; Caller true; Caller true; Caller true; Caller true;
   RemoteWrites Out hiLine; Moves Out 3; RemoteCloses Out; SeesEOF Out;
   RelayExits StdoutS; Caller true; Caller true; Caller true].

(** The same, but the caller's stream refuses the line: [io.Copy] returns
    an error, which the relay discards. *)
Definition scheduleRefused : list action :=
  [Caller true; Caller true; Caller true; Caller true; Caller true;
   RemoteWrites Out hiLine; CopyFails Out 3 0; RemoteCloses Out;
   RelayExits StdoutS; Caller true; Caller true; Caller true].

End Output.

(** * Properties *)

(** ** Strings *)

Lemma append_cons (c : ascii) (s t : string) :
  String c s +:+ t = String c (s +:+ t).
Proof. reflexivity. Qed.

Lemma append_nil_r (s : string) : s +:+ "" = s.
Proof.
  induction s as [|c s IH]; [reflexivity |].
  now rewrite append_cons, IH.
Qed.

Lemma append_assoc (a b c : string) : (a +:+ b) +:+ c = a +:+ (b +:+ c).
Proof.
  induction a as [|x a IH]; [reflexivity |].
  now rewrite !append_cons, IH.
Qed.

Lemma length_append (a b : string) :
  String.length (a +:+ b) = (String.length a + String.length b)%nat.
Proof.
  induction a as [|x a IH]; [reflexivity |].
  rewrite append_cons. simpl. now rewrite IH.
Qed.

(** Cancellation of a common suffix. *)
Lemma append_inv_tail (a b c : string) : a +:+ c = b +:+ c -> a = b.
Proof.
  revert b. induction a as [|x a IH]; intros [|y b] H.
  - reflexivity.
  - apply (f_equal String.length) in H.
    rewrite !length_append in H. simpl in H. lia.
  - apply (f_equal String.length) in H.
    rewrite !length_append in H. simpl in H. lia.
  - rewrite !append_cons in H. injection H as -> H. f_equal. now apply IH.
Qed.

(** ** The command line *)

Section CommandLineFacts.

Variable Quote : string -> string.

Lemma renderEntries_cons (kv : string * string) (l : list (string * string)) :
  renderEntries Quote (kv :: l) = renderEntry Quote kv +:+ renderEntries Quote l.
Proof. reflexivity. Qed.

Lemma renderEntries_app (l1 l2 : list (string * string)) :
  renderEntries Quote (l1 ++ l2) = renderEntries Quote l1 +:+ renderEntries Quote l2.
Proof.
  induction l1 as [|kv l1 IH]; [reflexivity |].
  rewrite <- app_comm_cons, !renderEntries_cons, IH.
  now rewrite append_assoc.
Qed.

(** The loop over the keys appends the text of the environment's entries. *)
Lemma envLoop_render (env : Env) (prefix : string) :
  envLoop Quote env prefix = prefix +:+ renderEntries Quote (envEntries env).
Proof.
  unfold envLoop, envEntries, Keys. generalize (Shell.keys env) as ks.
  intros ks. revert prefix.
  induction ks as [|e ks IH]; intros prefix.
  - cbn. now rewrite append_nil_r.
  - rewrite filter_cons. cbn [fold_left]. rewrite IH.
    destruct (decide (e <> "")) as [Hne|He]; [| reflexivity].
    rewrite map_cons, renderEntries_cons. unfold renderEntry. cbn [fst snd].
    now rewrite !append_assoc.
Qed.

(** The line is the [cd] part, the entries of the command, the entries of the
    device, the name and the arguments. *)
Lemma commandLine_render (cmd : Cmd) (benv : Env) :
  commandLine Quote cmd benv =
    cdPrefix cmd +:+ renderEntries Quote (sentEntries cmd benv)
      +:+ Name cmd +:+ " " +:+ Join (Args cmd) " ".
Proof.
  unfold commandLine, sentEntries, cdPrefix.
  rewrite !envLoop_render, renderEntries_app.
  destruct (decide (Dir cmd <> "")); simpl; now rewrite !append_assoc.
Qed.

(** A key of the environment that is not empty contributes its entry. *)
Lemma envEntries_key (env : Env) (k : string) :
  k <> "" -> k ∈ Keys env ->
  exists l1 l2, envEntries env = l1 ++ (TrimSpace k, Get env k) :: l2.
Proof.
  intros Hne Hin. unfold envEntries.
  assert (Hf : k ∈ filter (fun e => e <> "") (Keys env)).
  { apply list_elem_of_filter. split; assumption. }
  apply list_elem_of_split in Hf as (f1 & f2 & ->).
  rewrite map_app. simpl. eauto.
Qed.

End CommandLineFacts.

(** C1, as stated, fails: with [A] set by the command and by the device, the
    line carries [A=1] and then [A=2]; the device's value is sent as well and
    is the later of the two. *)
Lemma command_env_override_counterexample :
  "A" ∈ Keys (Environment cmdSetsA) /\ "A" ∈ Keys deviceSetsA /\
  Get (Environment cmdSetsA) "A" = "1" /\
  sentEntries cmdSetsA deviceSetsA = [("A", "1"); ("A", "2")] /\
  ~ (forall v, ("A", v) ∈ sentEntries cmdSetsA deviceSetsA ->
               v = Get (Environment cmdSetsA) "A").
Proof.
  repeat split; try (vm_compute; reflexivity); try (apply list_elem_of_here).
  intros H. specialize (H "2").
  assert (Hin : ("A", "2") ∈ sentEntries cmdSetsA deviceSetsA).
  { apply list_elem_of_further, list_elem_of_here. }
  apply H in Hin. vm_compute in Hin. discriminate Hin.
Qed.

(** C1, amended: for a key that is not empty and is set both by the command
    and by the device, the line carries two assignments of the (trimmed) key,
    the command's value first and the device's value after it; neither
    replaces the other. *)
Theorem command_and_device_entries_both_sent
    (Quote : string -> string) (cmd : Cmd) (benv : Env) (k : string) :
  k <> "" -> k ∈ Keys (Environment cmd) -> k ∈ Keys benv ->
  exists l1 l2 l3,
    sentEntries cmd benv =
      l1 ++ (TrimSpace k, Get (Environment cmd) k)
         :: l2 ++ (TrimSpace k, Get benv k) :: l3 /\
    commandLine Quote cmd benv =
      cdPrefix cmd +:+ renderEntries Quote l1
        +:+ renderEntry Quote (TrimSpace k, Get (Environment cmd) k)
        +:+ renderEntries Quote l2
        +:+ renderEntry Quote (TrimSpace k, Get benv k)
        +:+ renderEntries Quote l3
        +:+ Name cmd +:+ " " +:+ Join (Args cmd) " ".
Proof.
  intros Hne Hc Hd.
  destruct (envEntries_key (Environment cmd) k Hne Hc) as (c1 & c2 & Ec).
  destruct (envEntries_key benv k Hne Hd) as (d1 & d2 & Ed).
  exists c1, (c2 ++ d1), d2.
  assert (E : sentEntries cmd benv =
              c1 ++ (TrimSpace k, Get (Environment cmd) k)
                 :: (c2 ++ d1) ++ (TrimSpace k, Get benv k) :: d2).
  { unfold sentEntries. rewrite Ec, Ed.
    rewrite <- !app_assoc. simpl. reflexivity. }
  split; [exact E |].
  rewrite commandLine_render, E.
  rewrite renderEntries_app, renderEntries_cons.
  rewrite renderEntries_app, renderEntries_cons.
  now rewrite !append_assoc.
Qed.

Lemma command_and_device_entries_both_sent_witness :
  exists l1 l2 l3,
    sentEntries cmdSetsA deviceSetsA =
      l1 ++ (TrimSpace "A", Get (Environment cmdSetsA) "A")
         :: l2 ++ (TrimSpace "A", Get deviceSetsA "A") :: l3 /\
    commandLine (fun v => v) cmdSetsA deviceSetsA =
      cdPrefix cmdSetsA +:+ renderEntries (fun v => v) l1
        +:+ renderEntry (fun v => v) (TrimSpace "A", Get (Environment cmdSetsA) "A")
        +:+ renderEntries (fun v => v) l2
        +:+ renderEntry (fun v => v) (TrimSpace "A", Get deviceSetsA "A")
        +:+ renderEntries (fun v => v) l3
        +:+ Name cmdSetsA +:+ " " +:+ Join (Args cmdSetsA) " ".
Proof.
  apply (command_and_device_entries_both_sent (fun v => v) cmdSetsA deviceSetsA "A").
  - discriminate.
  - vm_compute. apply list_elem_of_here.
  - vm_compute. apply list_elem_of_here.
Defined.

(** C4, as stated, fails: the working directory is written as it is.  For
    [cmdInDir] the line is [cd my dir; ls -l] whatever the quoting, so it
    differs from the contract's line under every quoting that changes
    [my dir]. *)
Lemma wire_contract_counterexample :
  (forall Quote, commandLine Quote cmdInDir NewEnv = "cd my dir; ls -l") /\
  (forall Quote, Quote "my dir" <> "my dir" ->
     commandLine Quote cmdInDir NewEnv <> wireContract Quote [] cmdInDir).
Proof.
  split; [intros Quote; reflexivity |].
  intros Quote Hq E. apply Hq.
  change (commandLine Quote cmdInDir NewEnv)
    with ("cd " +:+ ("my dir" +:+ "; ls -l")) in E.
  assert (W : wireContract Quote [] cmdInDir
              = "cd " +:+ (Quote "my dir" +:+ "; ls -l")).
  { unfold wireContract. cbn.
    destruct (decide ("my dir" <> "")) as [_|Hd]; [| now destruct Hd].
    now rewrite !append_assoc. }
  rewrite W in E.
  apply (inj (String.app "cd ")) in E.
  symmetry. exact (append_inv_tail _ _ _ E).
Qed.

(** C4, amended: the line is an optional [cd DIR; ] with DIR as given (not
    quoted), then [KEY=VAL ] for every key of the command's environment that
    is not empty, then the same for the device's environment, the key trimmed
    and VAL quoted, then the name, a space and the arguments joined by
    spaces. *)
Theorem command_line_form (Quote : string -> string) (cmd : Cmd) (benv : Env) :
  commandLine Quote cmd benv =
    (if decide (Dir cmd <> "") then "cd " +:+ Dir cmd +:+ "; " else "")
      +:+ renderEntries Quote (envEntries (Environment cmd))
      +:+ renderEntries Quote (envEntries benv)
      +:+ Name cmd +:+ " " +:+ Join (Args cmd) " ".
Proof.
  rewrite commandLine_render. unfold sentEntries, cdPrefix.
  now rewrite renderEntries_app, !append_assoc.
Qed.

(** ** The process: [Start], the relays and [Wait] *)

Module ProcessFacts.

Import Process.

Lemma inv_init (cmd : Cmd) : inv cmd init.
Proof. split; reflexivity. Qed.

Ltac relay_cases :=
  repeat match goal with
         | r : relay |- _ => destruct r
         end.

Ltac close_inv :=
  cbn in *; try assumption; try discriminate; try congruence; try lia.

(** Every enabled action keeps the invariant. *)
Lemma inv_step (cmd : Cmd) (a : action) (s s' : state) :
  inv cmd s -> step cmd a s = Some s' -> inv cmd s'.
Proof.
  intros [Hwg Hin Hout Herr Hopen Hst Hret] Hstep.
  destruct s as [p o c w ri ro re]. cbn in Hwg, Hin, Hout, Herr, Hopen, Hst, Hret.
  destruct a as [ok | st | st].
  - (* the caller's thread *)
    cbn in Hstep. unfold wire, supplied in *.
    destruct p as [ | | | | | f | | | | ]; cbn in Hstep;
      try discriminate Hstep;
      repeat match type of Hstep with
             | context [given ?x] => destruct (given x) eqn:?
             | context [if ok then _ else _] => destruct ok
             | context [if ?w =? 0 then _ else _] => destruct (Z.eqb_spec w 0)
             end;
      cbn in Hstep; try discriminate Hstep;
      injection Hstep as <-;
      relay_cases; cbn in *; try discriminate;
      split; close_inv.
  - (* io.Copy returns *)
    cbn in Hstep.
    destruct st; cbn in Hstep;
      match type of Hstep with
      | match ?r with _ => _ end = _ => destruct r; try discriminate Hstep
      end;
      injection Hstep as <-;
      split; close_inv.
  - (* the relay ends *)
    cbn in Hstep.
    destruct st; cbn in Hstep;
      match type of Hstep with
      | match ?r with _ => _ end = _ => destruct r; try discriminate Hstep
      end;
      injection Hstep as <-;
      split; close_inv;
      intros ->; specialize (Hret eq_refl); relay_cases; cbn in *; lia.
Qed.

Lemma inv_run (cmd : Cmd) (tr : list action) (s s' : state) :
  inv cmd s -> run cmd tr s = Some s' -> inv cmd s'.
Proof.
  revert s. induction tr as [|a tr IH]; intros s Hinv Hrun; cbn in Hrun.
  - now injection Hrun as <-.
  - destruct (step cmd a s) as [s1|] eqn:Hs; [| discriminate].
    eapply IH; [eapply inv_step; eassumption | exact Hrun].
Qed.

Lemma inv_reachable (cmd : Cmd) (tr : list action) (s : state) :
  run cmd tr init = Some s -> inv cmd s.
Proof. apply inv_run, inv_init. Qed.

(** The completion barrier alone, without the bytes: in every state a
    schedule can reach in which [Wait] has returned, the relay of every
    supplied stdout or stderr stream has run to its end. *)
Theorem wait_returns_after_relays
    (cmd : Cmd) (tr : list action) (s : state) :
  run cmd tr init = Some s ->
  at_pc s = pcWaitReturned ->
  (supplied cmd StdoutS = true -> stdout_relay s = Finished) /\
  (supplied cmd StderrS = true -> stderr_relay s = Finished).
Proof.
  intros Hrun Hpc.
  destruct (inv_reachable cmd tr s Hrun)
    as [Hwg _ Hout Herr _ _ Hret].
  specialize (Hret Hpc). rewrite Hpc in Hout, Herr. cbn in Hout, Herr.
  split; intros Hsup; cbn in Hsup.
  - rewrite Hsup in Hout.
    destruct (stdout_relay s), (stderr_relay s); cbn in *;
      try reflexivity; try discriminate; lia.
  - rewrite Hsup in Herr.
    destruct (stdout_relay s), (stderr_relay s); cbn in *;
      try reflexivity; try discriminate; lia.
Qed.

(** With all three streams supplied, [Wait] returns in a state where the
    stdout and stderr relays are finished. *)
Lemma wait_returns_after_relays_witness :
  run cmdAllStreams (scheduleWithoutStdin cmdAllStreams) init
    = Some (mkState pcWaitReturned true true 0 Copying Finished Finished) /\
  (supplied cmdAllStreams StdoutS = true ->
     stdout_relay (mkState pcWaitReturned true true 0 Copying Finished Finished)
     = Finished) /\
  (supplied cmdAllStreams StderrS = true ->
     stderr_relay (mkState pcWaitReturned true true 0 Copying Finished Finished)
     = Finished).
Proof.
  split; [vm_compute; reflexivity |].
  apply (wait_returns_after_relays cmdAllStreams
           (scheduleWithoutStdin cmdAllStreams)
           (mkState pcWaitReturned true true 0 Copying Finished Finished));
    vm_compute; reflexivity.
Defined.

(** C5, as stated, fails: when the stdout pipe cannot be set up, [Start]
    returns the error with the stdin relay spawned and still copying and
    with the session it opened still open. *)
Lemma start_error_counterexample :
  run cmdAllStreams [Main true; Main true; Main false] init
    = Some (mkState (pcReturnedErr (PipeFailed StdoutS)) true false 0
                    Copying Absent Absent) /\
  ~ (forall cmd tr s f,
       run cmd tr init = Some s -> at_pc s = pcReturnedErr f ->
       command_started s = false /\
       (forall st, running (relay_of s st) = false) /\
       session_open s = false).
Proof.
  split; [vm_compute; reflexivity |].
  intros H.
  assert (Hrun : run cmdAllStreams [Main true; Main true; Main false] init
                 = Some (mkState (pcReturnedErr (PipeFailed StdoutS)) true false 0
                                 Copying Absent Absent))
    by (vm_compute; reflexivity).
  destruct (H _ _ _ (PipeFailed StdoutS) Hrun eq_refl) as (_ & _ & Hopen).
  discriminate Hopen.
Qed.

(** C5, amended: whenever [Start] has returned an error, no remote command
    has begun executing.  When the session could not be opened, no session
    is open and no relay was spawned.  After a pipe or start failure the
    session opened by this call is still open (nothing closes it), and a
    relay was spawned exactly for each supplied stream whose block ran
    before the failure; [Start] does not stop it. *)
Theorem start_error_state
    (cmd : Cmd) (tr : list action) (s : state) (f : failure) :
  run cmd tr init = Some s ->
  at_pc s = pcReturnedErr f ->
  command_started s = false /\
  (f = NewSessionFailed ->
     session_open s = false /\ forall st, relay_of s st = Absent) /\
  (f <> NewSessionFailed -> session_open s = true) /\
  (forall st, negb (absent (relay_of s st))
              = wired_at (pcReturnedErr f) st && supplied cmd st).
Proof.
  intros Hrun Hpc.
  destruct (inv_reachable cmd tr s Hrun)
    as [_ Hin Hout Herr Hopen Hst _].
  rewrite Hpc in *.
  split; [exact Hst |].
  split; [| split].
  - intros ->. split; [exact Hopen |].
    cbn in Hin, Hout, Herr.
    intros [| |]; cbn;
      [destruct (stdin_relay s) | destruct (stdout_relay s)
       | destruct (stderr_relay s)];
      first [reflexivity | discriminate].
  - intros Hf. rewrite Hopen. destruct f as [|st|]; [now destruct Hf | |];
      reflexivity.
  - intros [| |]; assumption.
Qed.

Lemma start_error_state_witness :
  run cmdAllStreams [Main true; Main true; Main false] init
    = Some (mkState (pcReturnedErr (PipeFailed StdoutS)) true false 0
                    Copying Absent Absent) /\
  command_started (mkState (pcReturnedErr (PipeFailed StdoutS)) true false 0
                           Copying Absent Absent) = false.
Proof.
  split; [vm_compute; reflexivity |].
  apply (start_error_state cmdAllStreams [Main true; Main true; Main false]
           (mkState (pcReturnedErr (PipeFailed StdoutS)) true false 0
                    Copying Absent Absent)
           (PipeFailed StdoutS));
    vm_compute; reflexivity.
Defined.

(** C10: the stdin relay is not registered in the completion counter.  In
    every reachable state the counter is the number of stdout and stderr
    relays that were spawned and have not run to their end, whatever the
    stdin relay does; and for every descriptor that supplies an input stream
    there is a schedule after which [Wait] has returned while the stdin relay
    is still inside [io.Copy]. *)
Theorem stdin_relay_not_counted (cmd : Cmd) :
  supplied cmd StdinS = true ->
  counted StdinS = false /\
  (forall tr s, run cmd tr init = Some s ->
     wg s = Z.b2z (running (stdout_relay s)) + Z.b2z (running (stderr_relay s))) /\
  exists s,
    run cmd (scheduleWithoutStdin cmd) init = Some s /\
    at_pc s = pcWaitReturned /\
    stdin_relay s = Copying.
Proof.
  intros Hin. split; [reflexivity |]. split.
  - intros tr s Hrun. exact (inv_wg _ _ (inv_reachable cmd tr s Hrun)).
  - unfold scheduleWithoutStdin, drain.
    cbn in Hin. cbn [supplied].
    destruct (given (Stdout cmd)) eqn:Ho, (given (Stderr cmd)) eqn:He;
      cbn; unfold wire; cbn [supplied]; rewrite ?Hin, ?Ho, ?He; cbn;
      rewrite ?Hin, ?Ho, ?He; cbn;
      eexists; (split; [reflexivity |]); split; reflexivity.
Qed.

Lemma stdin_relay_not_counted_witness :
  counted StdinS = false /\
  (forall tr s, run cmdAllStreams tr init = Some s ->
     wg s = Z.b2z (running (stdout_relay s)) + Z.b2z (running (stderr_relay s))) /\
  exists s,
    run cmdAllStreams (scheduleWithoutStdin cmdAllStreams) init = Some s /\
    at_pc s = pcWaitReturned /\
    stdin_relay s = Copying.
Proof.
  apply (stdin_relay_not_counted cmdAllStreams). vm_compute. reflexivity.
Defined.

End ProcessFacts.

(** ** The tunnel accept loop *)

Module TunnelFacts.

Import Tunnel.

(** Accepts whose dials succeed add their pairs and keep the loop going. *)
Lemma acceptLoop_dials_ok (pre rest : list accept) (s : state) :
  Forall (fun a => dial_ok a = true) pre ->
  acceptLoop (pre ++ rest) s =
    acceptLoop rest
      (mkState (listener_open s) (closed s)
               (forwarding s ++ concat (map pair_of pre))).
Proof.
  intros Hpre. revert s.
  induction Hpre as [|a pre Ha _ IH]; intros s.
  - cbn. rewrite app_nil_r. now destruct s.
  - destruct a as [e | l [e | r]]; try discriminate Ha.
    cbn. rewrite IH. cbn. now rewrite <- app_assoc.
Qed.

(** C3, as stated, fails: after the failed dial the local connection is
    closed, but the goroutine returns and its deferred call closes the
    listener; the second connection is never accepted. *)
Lemma failed_dial_counterexample :
  acceptLoop acceptsAfterFailedDial init = (Exited, mkState false [1%nat] []) /\
  ~ (forall c e rest s,
       acceptLoop (Accepted c (inl e) :: rest) s
       = acceptLoop rest (close_conn c s)).
Proof.
  split; [reflexivity |].
  intros H.
  specialize (H 1%nat "connection refused" [Accepted 2%nat (inr 3%nat)] init).
  discriminate H.
Qed.

(** C3, amended: when the dial for an accepted connection fails, after any
    number of accepts whose dials succeeded, that local connection is closed,
    the loop exits and the listener is closed; whatever would have been
    accepted afterwards is not. *)
Theorem failed_dial_ends_accept_loop
    (pre rest : list accept) (c : conn) (e : error) (s : state) :
  Forall (fun a => dial_ok a = true) pre ->
  acceptLoop (pre ++ Accepted c (inl e) :: rest) s =
    (Exited,
     mkState false (closed s ++ [c])
             (forwarding s ++ concat (map pair_of pre))).
Proof.
  intros Hpre. rewrite (acceptLoop_dials_ok pre _ s Hpre). reflexivity.
Qed.

Lemma failed_dial_ends_accept_loop_witness :
  acceptLoop ([Accepted 1%nat (inr 10%nat)]
                ++ Accepted 2%nat (inl "connection refused")
                :: [Accepted 3%nat (inr 30%nat)]) init =
    (Exited,
     mkState false (closed init ++ [2%nat])
             (forwarding init
                ++ concat (map pair_of [Accepted 1%nat (inr 10%nat)]))).
Proof.
  apply (failed_dial_ends_accept_loop
           [Accepted 1%nat (inr 10%nat)] [Accepted 3%nat (inr 30%nat)]
           2%nat "connection refused" init).
  repeat constructor.
Defined.

End TunnelFacts.

(** ** File and directory primitives *)

Module DeviceFacts.

Import Device.

(** [Perm] keeps the nine permission bits. *)
Lemma Perm_range (m : FileMode) : 0 <= Perm m < 512.
Proof.
  unfold Perm. change 511 with (Z.ones 9).
  rewrite Z.land_ones by lia. apply Z.mod_pos_bound. lia.
Qed.

(** The field written for any nine-bit value, by enumeration. *)
Lemma permFieldOk_small (n : Z) : 0 <= n < 512 -> permFieldOk n = true.
Proof.
  intros Hn.
  assert (Hall : forallb permFieldOk (map Z.of_nat (seq 0 512)) = true)
    by (vm_compute; reflexivity).
  rewrite forallb_forall in Hall. apply Hall.
  apply in_map_iff. exists (Z.to_nat n). split; [lia |].
  apply in_seq. lia.
Qed.

Section PrimitiveFacts.

Variable Quote : string -> string.
Variable remote : world -> launch -> string * option error.

(** The line of a command made by [Shell], without directory or
    environment of its own. *)
Lemma Call_Shell (b : binding) (name : string) (args : list string)
    (stdin : option Reader) (w : world) :
  Call Quote remote b (mkCmd name args "" stdin None None NewEnv) w =
    let l := mkLaunch (renderEntries Quote (envEntries (env b))
                         +:+ name +:+ " " +:+ Join args " ") stdin in
    (remote w l, w ++ [l]).
Proof.
  unfold Call. rewrite commandLine_render. reflexivity.
Qed.

(** C6, amended: on a Windows device [MakeTempDir] returns the fixed error
    and launches nothing; on a device of any kind other than Linux, OSX and
    Windows it panics, and launches nothing either. *)
Theorem MakeTempDir_unsupported (e : Env) (w : world) :
  MakeTempDir Quote remote (mkBinding e Windows) w
    = (Returned ("", None, Some "Windows remote targets are not yet supported."), w) /\
  MakeTempDir Quote remote (mkBinding e OtherOS) w
    = (Panicked (UnsupportedOS OtherOS), w).
Proof. split; reflexivity. Qed.

(** C7, amended: [WriteFile] launches one command, with the content as its
    input; after the assignments of the device environment its line is
    [cat > DEST ; chmod], the mode field and DEST, the pieces joined by the
    blanks of [strings.Join].  The mode field is the permission bits in octal,
    right-aligned in four characters and padded with blanks: it starts with a
    blank, so it never holds four digits, and it reads back as the permission
    bits. *)
Theorem WriteFile_launch
    (b : binding) (contents : Reader) (mode : FileMode) (destPath : string)
    (w : world) :
  WriteFile Quote remote b contents mode destPath w =
    (snd (remote w
            (mkLaunch (renderEntries Quote (envEntries (env b))
                         +:+ "cat > " +:+ destPath +:+ " ; chmod  "
                         +:+ Sprintf_4o (Perm mode) +:+ "   " +:+ destPath)
                      (Some contents))),
     w ++ [mkLaunch (renderEntries Quote (envEntries (env b))
                       +:+ "cat > " +:+ destPath +:+ " ; chmod  "
                       +:+ Sprintf_4o (Perm mode) +:+ "   " +:+ destPath)
                    (Some contents)]) /\
  String.length (Sprintf_4o (Perm mode)) = 4%nat /\
  (exists rest, Sprintf_4o (Perm mode) = String " " rest) /\
  octalValue (Sprintf_4o (Perm mode)) = Perm mode.
Proof.
  split.
  - unfold WriteFile, bind, ret, Shell, Command, Read. cbn [Name Args Dir Stdin
      Stdout Stderr Environment].
    rewrite Call_Shell. reflexivity.
  - pose proof (permFieldOk_small (Perm mode) (Perm_range mode)) as Hok.
    unfold permFieldOk in Hok.
    apply andb_prop in Hok as [Hok Hblank]. apply andb_prop in Hok as [Hlen Hval].
    split; [now apply Nat.eqb_eq |]. split; [| now apply Z.eqb_eq].
    destruct (Sprintf_4o (Perm mode)) as [|c rest]; [discriminate |].
    apply Ascii.eqb_eq in Hblank as ->. now exists rest.
Qed.

(** C8, amended: when the local file opens and its mode is read, a push to a
    Linux or OSX device from a Windows host writes the file with the mode
    or-ed with [0550], so the mode field of the [chmod] reads back with the
    owner's and the group's execute bits set; from any other host the mode is
    passed on as it is, whatever its execute bits. *)
Theorem PushFile_mode
    (GOOS : string) (os_Open : string -> error + Reader)
    (os_Stat : string -> error + FileMode)
    (b : binding) (source dest : string) (w : world)
    (infile : Reader) (mode : FileMode) :
  os_Open source = inr infile ->
  os_Stat source = inr mode ->
  os b = Linux \/ os b = OSX ->
  (GOOS = "windows" ->
     PushFile Quote remote GOOS os_Open os_Stat b source dest w
       = WriteFile Quote remote b infile (Z.lor mode 360) dest w /\
     Z.testbit (octalValue (Sprintf_4o (Perm (Z.lor mode 360)))) 6 = true /\
     Z.testbit (octalValue (Sprintf_4o (Perm (Z.lor mode 360)))) 3 = true) /\
  (GOOS <> "windows" ->
     PushFile Quote remote GOOS os_Open os_Stat b source dest w
       = WriteFile Quote remote b infile mode dest w).
Proof.
  intros Hopen Hstat Hos. unfold PushFile. rewrite Hopen, Hstat.
  assert (Hposix : bool_decide (os b = Linux) || bool_decide (os b = OSX) = true).
  { destruct Hos as [-> | ->]; reflexivity. }
  rewrite Hposix. cbn [andb]. split.
  - intros ->. rewrite bool_decide_eq_true_2 by reflexivity.
    split; [reflexivity |].
    destruct (WriteFile_launch b infile (Z.lor mode 360) dest w)
      as (_ & _ & _ & ->).
    unfold Perm. rewrite !Z.land_spec, !Z.lor_spec.
    change (Z.testbit 360 6) with true. change (Z.testbit 360 3) with true.
    change (Z.testbit 511 6) with true. change (Z.testbit 511 3) with true.
    now rewrite !orb_true_r.
  - intros Hne. now rewrite bool_decide_eq_false_2.
Qed.

(** [IsDirectory], computed. *)
Lemma IsDirectory_eq (b : binding) (inPath : string) (w : world) :
  IsDirectory Quote remote b inPath w
  = ((bool_decide
        (snd (remote w (DeviceMore.probeLaunch Quote b "cd" inPath)) = None),
      None),
     w ++ [DeviceMore.probeLaunch Quote b "cd" inPath]).
Proof.
  unfold IsDirectory, bind, ret, Shell, Command.
  rewrite Call_Shell. cbn zeta. cbn [Join fst snd].
  change (mkLaunch _ None) with (DeviceMore.probeLaunch Quote b "cd" inPath).
  destruct (remote w _) as [out [e|]]; reflexivity.
Qed.

(** [IsFile], computed. *)
Lemma IsFile_eq (b : binding) (inPath : string) (w : world) :
  IsFile Quote remote b inPath w
  = if bool_decide
         (snd (remote w (DeviceMore.probeLaunch Quote b "cd" inPath)) = None)
    then ((false, None), w ++ [DeviceMore.probeLaunch Quote b "cd" inPath])
    else ((bool_decide
             (snd (remote (w ++ [DeviceMore.probeLaunch Quote b "cd" inPath])
                          (DeviceMore.probeLaunch Quote b "stat" inPath))
              = None),
           None),
          (w ++ [DeviceMore.probeLaunch Quote b "cd" inPath])
            ++ [DeviceMore.probeLaunch Quote b "stat" inPath]).
Proof.
  unfold IsFile. unfold bind at 1. rewrite IsDirectory_eq.
  cbn [fst snd].
  rewrite (bool_decide_eq_true_2 (None = None)) by reflexivity.
  cbn [andb].
  destruct (bool_decide
              (snd (remote w (DeviceMore.probeLaunch Quote b "cd" inPath)) = None));
    [reflexivity |].
  unfold bind, ret, Shell, Command.
  rewrite Call_Shell. cbn zeta. cbn [Join fst snd].
  change (mkLaunch _ None) with (DeviceMore.probeLaunch Quote b "stat" inPath).
  destruct (remote _ (DeviceMore.probeLaunch Quote b "stat" inPath))
    as [out [e|]]; reflexivity.
Qed.


End PrimitiveFacts.


(** C6, as stated, fails: on a device whose kind is none of the three the
    code names, [MakeTempDir] panics instead of returning the error. *)
Lemma MakeTempDir_counterexample :
  (forall Quote remote,
     MakeTempDir Quote remote otherDevice []
     = (Panicked (UnsupportedOS OtherOS), [])) /\
  (forall Quote remote,
     MakeTempDir Quote remote otherDevice []
     <> (Returned ("", None, Some "Windows remote targets are not yet supported."),
         [])).
Proof. split; intros Quote remote; [reflexivity | discriminate]. Qed.

(** C7, as stated, fails: for mode [0644] the mode field is a blank and
    three digits, not four digits, and the line differs from the contract's
    line. *)
Lemma WriteFile_counterexample :
  (forall Quote remote,
     snd (WriteFile Quote remote linuxDevice "data" 420 "/tmp/f" [])
     = [mkLaunch "cat > /tmp/f ; chmod   644   /tmp/f" (Some "data")]) /\
  Sprintf_4o (Perm 420) = " 644" /\
  Sprintf_4o (Perm 420) <> fourDigitOctal (Perm 420) /\
  "cat > /tmp/f ; chmod   644   /tmp/f" <> writeFileContract "/tmp/f" 420.
Proof.
  split; [intros Quote remote; reflexivity |].
  split; [reflexivity |].
  split; vm_compute; discriminate.
Qed.

(** C8, as stated, fails: on a Linux host a local file of mode [0644], which
    carries no execute bit, is pushed to a Linux device with the mode field
    [644]; no execute bit is forced. *)
Lemma PushFile_counterexample :
  os linuxDevice = Linux /\
  localStat "a.out" = inr 420 /\
  Z.land 420 73 = 0 /\
  (forall Quote remote,
     snd (PushFile Quote remote "linux" localOpen localStat linuxDevice
            "a.out" "/r/a.out" [])
     = [mkLaunch "cat > /r/a.out ; chmod   644   /r/a.out" (Some "bytes")]) /\
  Z.land (octalValue " 644") 73 = 0.
Proof.
  repeat split; try reflexivity.
Qed.

Lemma PushFile_mode_witness :
  ("windows" = "windows" ->
     PushFile (fun v => v) quietRemote "windows" localOpen localStat linuxDevice
       "a.out" "/r/a.out" []
     = WriteFile (fun v => v) quietRemote linuxDevice "bytes" (Z.lor 420 360)
         "/r/a.out" [] /\
     Z.testbit (octalValue (Sprintf_4o (Perm (Z.lor 420 360)))) 6 = true /\
     Z.testbit (octalValue (Sprintf_4o (Perm (Z.lor 420 360)))) 3 = true) /\
  ("windows" <> "windows" ->
     PushFile (fun v => v) quietRemote "windows" localOpen localStat linuxDevice
       "a.out" "/r/a.out" []
     = WriteFile (fun v => v) quietRemote linuxDevice "bytes" 420 "/r/a.out" []).
Proof.
  apply (PushFile_mode (fun v => v) quietRemote "windows" localOpen localStat
           linuxDevice "a.out" "/r/a.out" [] "bytes" 420).
  - reflexivity.
  - reflexivity.
  - left. reflexivity.
Defined.

End DeviceFacts.

(** * Further properties of the code *)

(** ** The copy task of a tunnel *)

Module PumpFacts.

Import Pump.

(** A read that puts nothing in the buffer. *)
Lemma no_bytes_read (t : turn) :
  (0 <? length (data t))%nat = false -> data t = [].
Proof.
  intros H. apply Nat.ltb_ge in H.
  destruct (data t); [reflexivity | cbn in H; lia].
Qed.

(** One turn whose write, if any, takes all: the bytes read are sent and
    the error of the read decides. *)
Lemma copyLoop_writesAll (t : turn) (rest : list turn) (sent : list Byte.byte) :
  writesAll t ->
  copyLoop (t :: rest) sent =
    match er t with
    | Some e => (Broke (if decide (e <> EOF) then Some e else None),
                 sent ++ data t)
    | None => copyLoop rest (sent ++ data t)
    end.
Proof.
  intros Hw. cbn [copyLoop].
  destruct (0 <? length (data t))%nat eqn:Hnr.
  - destruct Hw as [Hd | [Hew Hnw]].
    + rewrite Hd in Hnr. discriminate Hnr.
    + rewrite Hew, Hnw, Nat.eqb_refl. cbn [negb]. now rewrite firstn_all.
  - rewrite (no_bytes_read t Hnr), app_nil_r. reflexivity.
Qed.

(** Turns after which the loop goes on hand their bytes to the writer. *)
Lemma copyLoop_goesOn (pre rest : list turn) (sent : list Byte.byte) :
  Forall goesOn pre ->
  copyLoop (pre ++ rest) sent = copyLoop rest (sent ++ bytesRead pre).
Proof.
  intros Hpre. revert sent.
  induction Hpre as [|t pre [Her Hw] _ IH]; intros sent.
  - cbn. now rewrite app_nil_r.
  - rewrite <- app_comm_cons, (copyLoop_writesAll t _ sent Hw), Her, IH.
    unfold bytesRead. cbn [map concat]. now rewrite <- app_assoc.
Qed.

(** The last turn of a loop whose writes all succeed. *)
Lemma copyLoop_last (t : turn) (rest : list turn) (sent : list Byte.byte)
    (e : error) :
  er t = Some e -> writesAll t ->
  copyLoop (t :: rest) sent
  = (Broke (if decide (e <> EOF) then Some e else None), sent ++ data t).
Proof.
  intros Her Hw. now rewrite (copyLoop_writesAll t rest sent Hw), Her.
Qed.

(** X1: when every write takes all it is given, the task delivers, in order,
    every byte read up to and including the turn whose read reports an error
    or the end of the data, also the bytes that came with that report; it
    then closes the writer and calls [wg.Done()].  The end of the data is
    not logged, any other read error is. *)
Theorem copy_delivers_all_read
    (pre : list turn) (last : turn) (rest : list turn) (e : error) :
  Forall goesOn pre ->
  er last = Some e ->
  writesAll last ->
  copy (pre ++ last :: rest)
  = mkReport (bytesRead (pre ++ [last])) true
             (if decide (e <> EOF) then Some e else None) true.
Proof.
  intros Hpre Her Hw. unfold copy.
  rewrite (copyLoop_goesOn pre _ [] Hpre).
  rewrite (copyLoop_last last rest _ e Her Hw). cbn [app].
  unfold bytesRead. rewrite map_app, concat_app. cbn.
  now rewrite app_nil_r.
Qed.

Lemma copy_delivers_all_read_witness :
  copy ([mkTurn [Byte.x68; Byte.x69] None 2 None]
          ++ mkTurn [Byte.x0a] (Some EOF) 1 None :: [])
  = mkReport (bytesRead ([mkTurn [Byte.x68; Byte.x69] None 2 None]
                           ++ [mkTurn [Byte.x0a] (Some EOF) 1 None]))
             true (if decide (EOF <> EOF) then Some EOF else None) true.
Proof.
  apply (copy_delivers_all_read
           [mkTurn [Byte.x68; Byte.x69] None 2 None]
           (mkTurn [Byte.x0a] (Some EOF) 1 None) [] EOF).
  - constructor; [| constructor].
    split; [reflexivity | right; split; reflexivity].
  - reflexivity.
  - right. split; reflexivity.
Defined.

Lemma copyLoop_prefix (turns : list turn) (sent : list Byte.byte) :
  snd (copyLoop turns sent) `prefix_of` sent ++ bytesRead turns.
Proof.
  revert sent. induction turns as [|t turns IH]; intros sent.
  - cbn. now rewrite app_nil_r.
  - unfold bytesRead. cbn [map concat]. fold (bytesRead turns).
    assert (Hbreak : forall sent', sent' `prefix_of` sent ++ data t ->
               sent' `prefix_of` sent ++ data t ++ bytesRead turns).
    { intros sent' Hp. rewrite app_assoc. now apply prefix_app_r. }
    assert (Hafter : snd (match er t with
                          | Some e0 =>
                              (Broke (if decide (e0 <> EOF) then Some e0 else None),
                               sent ++ data t)
                          | None => copyLoop turns (sent ++ data t)
                          end) `prefix_of` sent ++ data t ++ bytesRead turns).
    { destruct (er t); [now apply Hbreak |]. rewrite app_assoc. apply IH. }
    assert (Htake : sent ++ take (nw t) (data t) `prefix_of` sent ++ data t).
    { apply prefix_app. exists (drop (nw t) (data t)). now rewrite take_drop. }
    cbn [copyLoop].
    destruct (0 <? length (data t))%nat eqn:Hnr.
    + destruct (ew t); [now apply Hbreak |].
      destruct (negb (length (data t) =? nw t)%nat) eqn:Hs; [now apply Hbreak |].
      apply negb_false_iff, Nat.eqb_eq in Hs.
      rewrite <- Hs, firstn_all. exact Hafter.
    + pose proof (no_bytes_read t Hnr) as Hd.
      rewrite Hd, app_nil_r in Hafter. rewrite Hd. exact Hafter.
Qed.

(** X2: whatever the connections answer, the bytes the writer has taken are
    an initial part of the bytes read, in the same order; the task calls
    [wg.Done()] exactly when it has closed the writer; and it logs an error
    only when it has done both. *)
Theorem copy_sends_what_it_read (turns : list turn) :
  delivered (copy turns) `prefix_of` bytesRead turns /\
  wg_done (copy turns) = writer_closed (copy turns) /\
  (logged (copy turns) <> None -> writer_closed (copy turns) = true).
Proof.
  unfold copy. pose proof (copyLoop_prefix turns []) as Hp.
  destruct (copyLoop turns []) as [[err|] sent]; cbn in *.
  - repeat split. exact Hp.
  - repeat split; [exact Hp | intros H; now destruct H].
Qed.

(** The loop is left at the first turn whose read reports something. *)
Lemma copyLoop_breaks (turns : list turn) (sent : list Byte.byte) :
  Exists (fun t => er t <> None) turns ->
  exists err, fst (copyLoop turns sent) = Broke err.
Proof.
  intros Hex. revert sent.
  induction Hex as [t turns Ht | t turns _ IH]; intros sent; cbn [copyLoop].
  - destruct (er t) as [e|] eqn:Her; [| now destruct Ht].
    destruct (0 <? length (data t))%nat; [| cbn; eauto].
    destruct (ew t); [cbn; eauto |].
    destruct (negb (length (data t) =? nw t)%nat); cbn; eauto.
  - destruct (0 <? length (data t))%nat.
    + destruct (ew t); [cbn; eauto |].
      destruct (negb (length (data t) =? nw t)%nat); [cbn; eauto |].
      destruct (er t); [cbn; eauto | apply IH].
    + destruct (er t); [cbn; eauto | apply IH].
Qed.

(** X3: once a read has reported an error or the end of the data, the task
    is over: it has closed the writer and called [wg.Done()], whatever the
    writes did before. *)
Theorem copy_ends_on_read_report (turns : list turn) :
  Exists (fun t => er t <> None) turns ->
  writer_closed (copy turns) = true /\ wg_done (copy turns) = true.
Proof.
  intros Hex. unfold copy.
  destruct (copyLoop_breaks turns [] Hex) as [err Herr].
  destruct (copyLoop turns []) as [e sent]. cbn in Herr. subst e.
  split; reflexivity.
Qed.

Lemma copy_ends_on_read_report_witness :
  writer_closed (copy [mkTurn [Byte.x61] None 0 (Some (Err "broken pipe"));
                       mkTurn [] (Some EOF) 0 None]) = true /\
  wg_done (copy [mkTurn [Byte.x61] None 0 (Some (Err "broken pipe"));
                 mkTurn [] (Some EOF) 0 None]) = true.
Proof.
  apply (copy_ends_on_read_report
           [mkTurn [Byte.x61] None 0 (Some (Err "broken pipe"));
            mkTurn [] (Some EOF) 0 None]).
  right. left. discriminate.
Defined.

(** X4: a write that fails or is short ends the task at once, before the
    error of the same turn's read is looked at: the bytes of the earlier
    turns and the part the failing write took are delivered, the writer is
    closed, and the error logged is the write's error or, for a short write
    without error, [short write]. *)
Theorem copy_stops_at_failed_write
    (pre : list turn) (t : turn) (rest : list turn) :
  Forall goesOn pre ->
  data t <> [] ->
  ew t <> None \/ nw t <> length (data t) ->
  copy (pre ++ t :: rest)
  = mkReport (bytesRead pre ++ take (nw t) (data t)) true
             (match ew t with
              | Some e => Some e
              | None => Some (Err "short write")
              end) true.
Proof.
  intros Hpre Hd Hfail. unfold copy.
  rewrite (copyLoop_goesOn pre _ [] Hpre). cbn [app copyLoop].
  assert (Hnr : (0 <? length (data t))%nat = true).
  { apply Nat.ltb_lt. destruct (data t); [now destruct Hd | cbn; lia]. }
  rewrite Hnr. destruct (ew t) as [e|]; [reflexivity |].
  destruct Hfail as [Hf | Hf]; [now destruct Hf |].
  assert (Hs : negb (length (data t) =? nw t)%nat = true).
  { apply negb_true_iff, Nat.eqb_neq. congruence. }
  now rewrite Hs.
Qed.

Lemma copy_stops_at_failed_write_witness :
  copy ([mkTurn [Byte.x61] None 1 None]
          ++ mkTurn [Byte.x62; Byte.x63] (Some EOF) 1 None :: [])
  = mkReport (bytesRead [mkTurn [Byte.x61] None 1 None]
                ++ take 1 [Byte.x62; Byte.x63]) true
             (Some (Err "short write")) true.
Proof.
  apply (copy_stops_at_failed_write
           [mkTurn [Byte.x61] None 1 None]
           (mkTurn [Byte.x62; Byte.x63] (Some EOF) 1 None) []).
  - constructor; [| constructor].
    split; [reflexivity | right; split; reflexivity].
  - discriminate.
  - right. cbn. lia.
Defined.

End PumpFacts.

(** ** One forwarding session *)

Module ForwardingFacts.

Import Forwarding.

Lemma session_inv_init : inv init.
Proof. split; try reflexivity. intros H. now destruct H. Qed.

Lemma session_inv_step (a : action) (s s' : state) :
  inv s -> step a s = Some s' -> inv s'.
Proof.
  intros [Hwg Hsup Hl Hr] Hstep.
  destruct s as [w tl tr u lc rc]. cbn in Hwg, Hsup, Hl, Hr.
  destruct a as [[|] | [|] |]; cbn in Hstep;
    repeat match type of Hstep with
           | match ?x with _ => _ end = _ => destruct x eqn:?; try discriminate Hstep
           | (if ?c then _ else _) = _ => destruct c eqn:?; try discriminate Hstep
           end;
    injection Hstep as <-;
    split; cbn in *;
    try (intros Hu; try specialize (Hsup Hu));
    try (assert (Hw0 : w = 0) by (first [lia | apply Hsup; discriminate]));
    try (destruct tl; cbn in *); try (destruct tr; cbn in *);
    try lia; try discriminate; try congruence.
Qed.

Lemma session_inv_reachable (tr : list action) (s : state) :
  run tr init = Some s -> inv s.
Proof.
  assert (H : forall s0, inv s0 -> run tr s0 = Some s -> inv s).
  { induction tr as [|a tr IH]; intros s0 H0 Hrun; cbn in Hrun.
    - now injection Hrun as <-.
    - destruct (step a s0) as [s1|] eqn:Hs; [| discriminate].
      eapply IH; [eapply session_inv_step; eassumption | exact Hrun]. }
  apply H, session_inv_init.
Qed.

(** X5: the supervisor gets past [wg.Wait()], and so closes a connection,
    only when both copy tasks have called [wg.Done()]; the counter is never
    negative. *)
Theorem supervisor_waits_for_both_tasks (tr : list action) (s : state) :
  run tr init = Some s ->
  0 <= wg s <= 2 /\
  (sup s <> Waiting -> to_local s = TaskDone /\ to_remote s = TaskDone).
Proof.
  intros Hrun. destruct (session_inv_reachable tr s Hrun) as [Hwg Hsup _ _].
  split.
  - rewrite Hwg. destruct (to_local s), (to_remote s); cbn; lia.
  - intros Hu. specialize (Hsup Hu). rewrite Hwg in Hsup.
    destruct (to_local s), (to_remote s); cbn in Hsup; try lia.
    split; reflexivity.
Qed.

Lemma supervisor_waits_for_both_tasks_witness :
  0 <= wg (mkState 0 TaskDone TaskDone Woken 1 1) <= 2 /\
  (sup (mkState 0 TaskDone TaskDone Woken 1 1) <> Waiting ->
   to_local (mkState 0 TaskDone TaskDone Woken 1 1) = TaskDone /\
   to_remote (mkState 0 TaskDone TaskDone Woken 1 1) = TaskDone).
Proof.
  apply (supervisor_waits_for_both_tasks
           [LoopEnds ToLocal; LoopEnds ToRemote; TaskEnds ToRemote;
            TaskEnds ToLocal; Supervise]).
  reflexivity.
Defined.

(** X6: each connection is closed by the copy task that writes to it as
    soon as that task's loop ends, whatever the other direction is doing,
    and once more by the supervisor: when the supervisor has finished,
    [Close] has been called twice on the local and twice on the remote
    connection. *)
Theorem connections_closed_twice (tr : list action) (s : state) :
  run tr init = Some s ->
  (to_local s <> Looping -> (1 <= local_closes s)%nat) /\
  (to_remote s <> Looping -> (1 <= remote_closes s)%nat) /\
  (sup s = BothClosed -> local_closes s = 2%nat /\ remote_closes s = 2%nat).
Proof.
  intros Hrun.
  destruct (session_inv_reachable tr s Hrun) as [Hwg Hsup Hl Hr].
  repeat split.
  - intros Ht. rewrite Hl. destruct (to_local s); cbn; try lia. now destruct Ht.
  - intros Ht. rewrite Hr. destruct (to_remote s); cbn; try lia. now destruct Ht.
  - assert (Hu : sup s <> Waiting) by (rewrite H; discriminate).
    specialize (Hsup Hu). rewrite Hwg in Hsup. rewrite Hl, H.
    destruct (to_local s), (to_remote s); cbn in *; lia.
  - assert (Hu : sup s <> Waiting) by (rewrite H; discriminate).
    specialize (Hsup Hu). rewrite Hwg in Hsup. rewrite Hr, H.
    destruct (to_local s), (to_remote s); cbn in *; lia.
Qed.

Lemma connections_closed_twice_witness :
  (to_local (mkState 0 TaskDone TaskDone BothClosed 2 2) <> Looping ->
   (1 <= local_closes (mkState 0 TaskDone TaskDone BothClosed 2 2))%nat) /\
  (to_remote (mkState 0 TaskDone TaskDone BothClosed 2 2) <> Looping ->
   (1 <= remote_closes (mkState 0 TaskDone TaskDone BothClosed 2 2))%nat) /\
  (sup (mkState 0 TaskDone TaskDone BothClosed 2 2) = BothClosed ->
   local_closes (mkState 0 TaskDone TaskDone BothClosed 2 2) = 2%nat /\
   remote_closes (mkState 0 TaskDone TaskDone BothClosed 2 2) = 2%nat).
Proof.
  apply (connections_closed_twice
           [LoopEnds ToRemote; TaskEnds ToRemote; LoopEnds ToLocal;
            TaskEnds ToLocal; Supervise; Supervise; Supervise]).
  reflexivity.
Defined.

End ForwardingFacts.

(** ** The accept loop, further *)

Module AcceptFacts.

Import Tunnel.

(** X7: as long as every accept succeeds and every dial succeeds, the loop
    keeps accepting: the listener stays as it was, no connection is closed,
    and the pairs are handed to forwarding sessions in the order of the
    accepts. *)
Theorem accept_loop_forwards_in_order (evs : list accept) (s : state) :
  Forall (fun a => dial_ok a = true) evs ->
  acceptLoop evs s =
    (InAccept,
     mkState (listener_open s) (closed s)
             (forwarding s ++ concat (map pair_of evs))).
Proof.
  intros Hok.
  rewrite <- (app_nil_r evs) at 1.
  rewrite (TunnelFacts.acceptLoop_dials_ok evs [] s Hok). reflexivity.
Qed.

Lemma accept_loop_forwards_in_order_witness :
  acceptLoop [Accepted 1%nat (inr 10%nat); Accepted 2%nat (inr 20%nat)] init =
    (InAccept,
     mkState (listener_open init) (closed init)
             (forwarding init
                ++ concat (map pair_of [Accepted 1%nat (inr 10%nat);
                                        Accepted 2%nat (inr 20%nat)]))).
Proof.
  apply (accept_loop_forwards_in_order
           [Accepted 1%nat (inr 10%nat); Accepted 2%nat (inr 20%nat)] init).
  repeat constructor.
Defined.

(** X8: when [Accept] itself fails, as it does once the listener has been
    closed, the loop exits and closes the listener; it closes none of the
    connections it accepted, and the forwarding sessions it started are
    left as they are. *)
Theorem accept_error_ends_loop
    (pre rest : list accept) (e : error) (s : state) :
  Forall (fun a => dial_ok a = true) pre ->
  acceptLoop (pre ++ AcceptErr e :: rest) s =
    (Exited,
     mkState false (closed s) (forwarding s ++ concat (map pair_of pre))).
Proof.
  intros Hok. rewrite (TunnelFacts.acceptLoop_dials_ok pre _ s Hok). reflexivity.
Qed.

Lemma accept_error_ends_loop_witness :
  acceptLoop ([Accepted 1%nat (inr 10%nat)]
                ++ AcceptErr "use of closed network connection"
                :: [Accepted 2%nat (inr 20%nat)]) init =
    (Exited,
     mkState false (closed init)
             (forwarding init
                ++ concat (map pair_of [Accepted 1%nat (inr 10%nat)]))).
Proof.
  apply (accept_error_ends_loop
           [Accepted 1%nat (inr 10%nat)] [Accepted 2%nat (inr 20%nat)]
           "use of closed network connection" init).
  repeat constructor.
Defined.

(** X9: whatever the accepts and dials, the loop leaves the listener alone
    while it runs and closes it when it exits; it closes at most one
    connection in its life; and it never drops a forwarding session that
    was started. *)
Theorem accept_loop_effects (evs : list accept) (s : state) :
  (fst (acceptLoop evs s) = Exited ->
     listener_open (snd (acceptLoop evs s)) = false) /\
  (fst (acceptLoop evs s) = InAccept ->
     listener_open (snd (acceptLoop evs s)) = listener_open s /\
     closed (snd (acceptLoop evs s)) = closed s) /\
  (length (closed (snd (acceptLoop evs s))) <= S (length (closed s)))%nat /\
  forwarding s `prefix_of` forwarding (snd (acceptLoop evs s)).
Proof.
  revert s. induction evs as [|a evs IH]; intros s.
  - cbn. repeat split; try discriminate; try lia. reflexivity.
  - destruct a as [e | l [e | r]]; cbn.
    + repeat split; try discriminate; try lia. reflexivity.
    + repeat split; try discriminate; try reflexivity.
      rewrite length_app. cbn. lia.
    + specialize (IH (forward l r s)). cbn in IH.
      destruct IH as (H1 & H2 & H3 & H4).
      repeat split; try assumption; try (now apply H2).
      etransitivity; [| exact H4]. now apply prefix_app_r.
Qed.

End AcceptFacts.

(** ** The process, further *)

Module ProcessMore.

Import Process Schedules.

(** X10: the counter of [p.wg] is never negative, so [wg.Done()] never
    panics, and never exceeds the number of stdout and stderr streams the
    descriptor supplies. *)
Theorem wg_within_bounds (cmd : Cmd) (tr : list action) (s : state) :
  run cmd tr init = Some s ->
  0 <= wg s <=
    Z.b2z (supplied cmd StdoutS) + Z.b2z (supplied cmd StderrS).
Proof.
  intros Hrun.
  destruct (ProcessFacts.inv_reachable cmd tr s Hrun)
    as [Hwg _ Hout Herr _ _ _].
  rewrite Hwg.
  destruct (stdout_relay s), (stderr_relay s); cbn in *;
    repeat match goal with
           | H : true = _ && _ |- _ => symmetry in H; apply andb_prop in H as [_ ->]
           end;
    cbn; destruct (given (Stdout cmd)), (given (Stderr cmd)); cbn; lia.
Qed.

Lemma wg_within_bounds_witness :
  0 <= wg (mkState pcStderr true false 1 Copying Copying Absent) <=
    Z.b2z (supplied cmdAllStreams StdoutS) + Z.b2z (supplied cmdAllStreams StderrS).
Proof.
  apply (wg_within_bounds cmdAllStreams [Main true; Main true; Main true]).
  reflexivity.
Defined.

(** X11: when [Start] has returned a process, a relay was spawned for
    exactly the streams the descriptor supplies: a stream that is not
    supplied is not wired, and the session is open with the command
    started. *)
Theorem started_process_is_wired (cmd : Cmd) (tr : list action) (s : state) :
  run cmd tr init = Some s ->
  started (at_pc s) = true ->
  (forall st, negb (absent (relay_of s st)) = supplied cmd st) /\
  session_open s = true /\ command_started s = true.
Proof.
  intros Hrun Hst.
  destruct (ProcessFacts.inv_reachable cmd tr s Hrun)
    as [_ Hin Hout Herr Hopen Hcmd _].
  rewrite Hopen, Hcmd, Hst.
  destruct (at_pc s) as [ | | | | | f | | | | ]; try discriminate Hst;
    (split; [intros [| |]; assumption | split; reflexivity]).
Qed.

Lemma started_process_is_wired_witness :
  (forall st,
     negb (absent (relay_of (mkState pcReturnedProc true true 2
                                     Copying Copying Copying) st))
     = supplied cmdAllStreams st) /\
  session_open (mkState pcReturnedProc true true 2 Copying Copying Copying) = true /\
  command_started (mkState pcReturnedProc true true 2 Copying Copying Copying)
    = true.
Proof.
  apply (started_process_is_wired cmdAllStreams
           [Main true; Main true; Main true; Main true; Main true]);
    reflexivity.
Defined.

(** X12: [Wait] is never stuck for good.  From every state a schedule can
    reach after [Start] has returned a process, letting the stdout and
    stderr relays run to their end and the remote command exit makes [Wait]
    return; the stdin relay need not move. *)
Theorem wait_can_return (cmd : Cmd) (tr : list action) (s : state) :
  run cmd tr init = Some s ->
  started (at_pc s) = true ->
  exists s',
    run cmd (finish s) s = Some s' /\
    at_pc s' = pcWaitReturned /\
    stdin_relay s' = stdin_relay s.
Proof.
  intros Hrun Hst.
  destruct (ProcessFacts.inv_reachable cmd tr s Hrun)
    as [Hwg _ _ _ _ _ Hret].
  destruct s as [p o c w ri ro re]. cbn in Hwg, Hst, Hret. unfold finish.
  cbn [stdout_relay stderr_relay at_pc].
  destruct p as [ | | | | | f | | | | ]; try discriminate Hst;
    try (specialize (Hret eq_refl));
    destruct ro, re; cbn in Hwg; subst w; try lia;
    cbn; eexists; (split; [reflexivity |]); split; reflexivity.
Qed.

Lemma wait_can_return_witness :
  exists s',
    run cmdAllStreams
        (finish (mkState pcReturnedProc true true 2 Copying Copying Copying))
        (mkState pcReturnedProc true true 2 Copying Copying Copying) = Some s' /\
    at_pc s' = pcWaitReturned /\
    stdin_relay s'
    = stdin_relay (mkState pcReturnedProc true true 2 Copying Copying Copying).
Proof.
  apply (wait_can_return cmdAllStreams
           [Main true; Main true; Main true; Main true; Main true]);
    reflexivity.
Defined.

End ProcessMore.

(** ** More primitives of [binding] *)

Module DeviceMoreFacts.

Import Device DeviceMore.



Section MoreFacts.

Variable Quote : string -> string.
Variable remote : world -> launch -> string * option error.
Variable scanLines : string -> list string.



(** X14: [TempFile] runs [mktemp] on every kind of device, Windows too.
    When the command fails it returns the error and no cleanup; when it
    succeeds it returns the printed path and a cleanup that, run from any
    history, launches [rm -f] on that path and nothing else. *)
Theorem TempFile_and_cleanup (b : binding) (w : world) :
  match snd (remote w (mkLaunch (renderEntries Quote (envEntries (env b))
                                   +:+ "mktemp ") None)) with
  | Some err =>
      TempFile Quote remote b w
      = (("", None, Some err),
         w ++ [mkLaunch (renderEntries Quote (envEntries (env b)) +:+ "mktemp ")
                        None])
  | None =>
      exists cleanup,
        TempFile Quote remote b w
        = ((fst (remote w (mkLaunch (renderEntries Quote (envEntries (env b))
                                       +:+ "mktemp ") None)),
            Some cleanup, None),
           w ++ [mkLaunch (renderEntries Quote (envEntries (env b)) +:+ "mktemp ")
                          None]) /\
        forall w',
          snd (cleanup w')
          = w' ++ [mkLaunch
                     (renderEntries Quote (envEntries (env b)) +:+ "rm -f "
                        +:+ fst (remote w
                                   (mkLaunch (renderEntries Quote (envEntries (env b))
                                                +:+ "mktemp ") None)))
                     None]
  end.
Proof.
  unfold TempFile, bind, ret, Shell, Command.
  rewrite DeviceFacts.Call_Shell. cbn zeta. cbn [Join fst snd].
  destruct (remote w _) as [out [err|]] eqn:Hr; cbn [fst snd].
  - reflexivity.
  - eexists. split; [reflexivity |].
    intros w'. cbn beta. rewrite DeviceFacts.Call_Shell. reflexivity.
Qed.

(** X15: on a Linux or OSX device [MakeTempDir] runs [mktemp -d] and does
    not panic.  When the command fails it returns the error and no cleanup;
    when it succeeds it returns the printed path and a cleanup that, run
    from any history, launches [rm -rf] on that path and nothing else. *)
Theorem MakeTempDir_and_cleanup (b : binding) (w : world) :
  os b = Linux \/ os b = OSX ->
  match snd (remote w (mkLaunch (renderEntries Quote (envEntries (env b))
                                   +:+ "mktemp -d") None)) with
  | Some err =>
      MakeTempDir Quote remote b w
      = (Returned ("", None, Some err),
         w ++ [mkLaunch (renderEntries Quote (envEntries (env b)) +:+ "mktemp -d")
                        None])
  | None =>
      exists cleanup,
        MakeTempDir Quote remote b w
        = (Returned
             (fst (remote w (mkLaunch (renderEntries Quote (envEntries (env b))
                                         +:+ "mktemp -d") None)),
              Some cleanup, None),
           w ++ [mkLaunch (renderEntries Quote (envEntries (env b)) +:+ "mktemp -d")
                          None]) /\
        forall w',
          snd (cleanup w')
          = w' ++ [mkLaunch
                     (renderEntries Quote (envEntries (env b)) +:+ "rm -rf "
                        +:+ fst (remote w
                                   (mkLaunch (renderEntries Quote (envEntries (env b))
                                                +:+ "mktemp -d") None)))
                     None]
  end.
Proof.
  intros Hos.
  assert (E : MakeTempDir Quote remote b w
              = (Returned (fst (createPosixTempDirectory Quote remote b w)),
                 snd (createPosixTempDirectory Quote remote b w))).
  { unfold MakeTempDir. destruct Hos as [-> | ->];
      now destruct (createPosixTempDirectory Quote remote b w). }
  rewrite E. clear E.
  unfold createPosixTempDirectory, destroyPosixDirectory, bind, ret, Shell, Command.
  rewrite DeviceFacts.Call_Shell. cbn zeta. cbn [Join fst snd].
  destruct (remote w _) as [out [err|]] eqn:Hr; cbn [fst snd].
  - reflexivity.
  - eexists. split; [reflexivity |].
    intros w'. cbn beta. rewrite DeviceFacts.Call_Shell. reflexivity.
Qed.

(** X16: when the local file cannot be opened, or opens but cannot be
    examined, [PushFile] returns that error and launches nothing on the
    device. *)
Theorem PushFile_local_failure
    (GOOS : string) (os_Open : string -> error + Reader)
    (os_Stat : string -> error + FileMode)
    (b : binding) (source dest : string) (w : world) (e : error) :
  os_Open source = inl e
  \/ (exists infile, os_Open source = inr infile /\ os_Stat source = inl e) ->
  PushFile Quote remote GOOS os_Open os_Stat b source dest w = (Some e, w).
Proof.
  intros [Hopen | (infile & Hopen & Hstat)]; unfold PushFile.
  - now rewrite Hopen.
  - now rewrite Hopen, Hstat.
Qed.

(** X17: [IsDirectory] launches one command, the [cd] probe of the path.
    [IsFile] launches that probe and, only when the probe says the path is
    no directory, the [stat] probe of the path after it: on a directory it
    launches nothing more. *)
Theorem IsFile_launches (b : binding) (inPath : string) (w : world) :
  snd (IsDirectory Quote remote b inPath w)
    = w ++ [probeLaunch Quote b "cd" inPath] /\
  snd (IsFile Quote remote b inPath w)
    = (if fst (fst (IsDirectory Quote remote b inPath w))
       then w ++ [probeLaunch Quote b "cd" inPath]
       else w ++ [probeLaunch Quote b "cd" inPath;
                  probeLaunch Quote b "stat" inPath]).
Proof.
  rewrite DeviceFacts.IsDirectory_eq, DeviceFacts.IsFile_eq. cbn [fst snd].
  split; [reflexivity |].
  destruct (bool_decide _); cbn [snd]; [reflexivity |].
  now rewrite <- app_assoc.
Qed.

End MoreFacts.

Lemma MakeTempDir_and_cleanup_witness :
  match snd (quietRemote []
               (mkLaunch (renderEntries (fun v => v) (envEntries (env linuxDevice))
                            +:+ "mktemp -d") None)) with
  | Some err =>
      MakeTempDir (fun v => v) quietRemote linuxDevice []
      = (Returned ("", None, Some err),
         [] ++ [mkLaunch (renderEntries (fun v => v) (envEntries (env linuxDevice))
                            +:+ "mktemp -d") None])
  | None =>
      exists cleanup,
        MakeTempDir (fun v => v) quietRemote linuxDevice []
        = (Returned
             (fst (quietRemote []
                     (mkLaunch (renderEntries (fun v => v)
                                  (envEntries (env linuxDevice))
                                  +:+ "mktemp -d") None)),
              Some cleanup, None),
           [] ++ [mkLaunch (renderEntries (fun v => v) (envEntries (env linuxDevice))
                              +:+ "mktemp -d") None]) /\
        forall w',
          snd (cleanup w')
          = w' ++ [mkLaunch
                     (renderEntries (fun v => v) (envEntries (env linuxDevice))
                        +:+ "rm -rf "
                        +:+ fst (quietRemote []
                                   (mkLaunch (renderEntries (fun v => v)
                                                (envEntries (env linuxDevice))
                                                +:+ "mktemp -d") None)))
                     None]
  end.
Proof.
  apply (MakeTempDir_and_cleanup (fun v => v) quietRemote linuxDevice []).
  left. reflexivity.
Defined.

Lemma PushFile_local_failure_witness :
  PushFile (fun v => v) quietRemote "linux"
           (fun _ => inl "no such file") localStat linuxDevice
           "missing" "/r/missing" []
  = (Some "no such file", []).
Proof.
  apply (PushFile_local_failure (fun v => v) quietRemote "linux"
           (fun _ => inl "no such file") localStat linuxDevice
           "missing" "/r/missing" [] "no such file").
  left. reflexivity.
Defined.

End DeviceMoreFacts.

(** ** The output of a remote process *)

Module OutputFacts.

Import Process Output.

(** A statement of the caller's thread leaves a relay as it is or spawns
    it. *)
Lemma caller_step_relays (cmd : Cmd) (ok : bool) (b b' : Process.state) :
  Process.inv cmd b ->
  Process.step cmd (Main ok) b = Some b' ->
  forall st,
    relay_of b' st = relay_of b st
    \/ (relay_of b st = Absent /\ relay_of b' st = Copying).
Proof.
  intros [_ Hin Hout Herr _ _ _] Hstep st.
  destruct b as [p o c w ri ro re]. cbn in Hin, Hout, Herr.
  cbn in Hstep. unfold wire, supplied in *.
  destruct p as [ | | | | | f | | | | ]; cbn in Hstep;
    try discriminate Hstep;
    repeat match type of Hstep with
           | context [given ?x] => destruct (given x) eqn:?
           | context [if ok then _ else _] => destruct ok
           | context [if ?w =? 0 then _ else _] => destruct (Z.eqb_spec w 0)
           end;
    cbn in Hstep; try discriminate Hstep;
    injection Hstep as <-;
    destruct st; cbn in *; auto;
    repeat match goal with
           | r : relay |- _ => destruct r
           end;
    cbn in *; auto; discriminate.
Qed.

(** The return of an [io.Copy] moves its relay, and only it. *)
Lemma copy_returns_relays (cmd : Cmd) (st : stream) (b b' : Process.state) :
  Process.step cmd (CopyReturns st) b = Some b' ->
  relay_of b st = Copying /\ relay_of b' st = Copied /\
  forall st', st' <> st -> relay_of b' st' = relay_of b st'.
Proof.
  intros Hstep. cbn in Hstep.
  destruct (relay_of b st) eqn:Hr; try discriminate Hstep.
  injection Hstep as <-.
  split; [reflexivity |].
  destruct b as [p o c w ri ro re].
  split; [now destruct st |].
  intros st' Hne. destruct st, st'; cbn; congruence.
Qed.

(** The end of a relay moves that relay, and only it. *)
Lemma relay_exits_relays (cmd : Cmd) (st : stream) (b b' : Process.state) :
  Process.step cmd (Process.RelayExits st) b = Some b' ->
  relay_of b st = Copied /\ relay_of b' st = Finished /\
  forall st', st' <> st -> relay_of b' st' = relay_of b st'.
Proof.
  intros Hstep. cbn in Hstep.
  destruct (relay_of b st) eqn:Hr; try discriminate Hstep.
  injection Hstep as <-.
  split; [reflexivity |].
  destruct b as [p o c w ri ro re].
  split; [now destruct st |].
  intros st' Hne. destruct st, st'; cbn; congruence.
Qed.

(** A pipe that is not touched stays right when its relay is spawned. *)
Lemma pipe_inv_spawn (r r' : relay) (p : pipe) :
  pipe_inv r p ->
  r' = r \/ (r = Absent /\ r' = Copying) ->
  pipe_inv r' p.
Proof.
  intros [He Hf Ha] [-> | [-> ->]]; split; assumption.
Qed.

(** A pipe that is not touched stays right when its relay ends. *)
Lemma pipe_inv_exit (p : pipe) :
  pipe_inv Copied p -> pipe_inv Finished p.
Proof. intros [He Hf Ha]; split; assumption. Qed.

(** What an enabled action on a pipe keeps, with the relay before and
    after. *)
Lemma pipe_step_inv (a : action) (r r' : relay) (started : bool) (p p' : pipe) :
  pipe_inv r p ->
  pipe_step a (copying r) started p = Some p' ->
  match erase a with
  | Some _ => r = Copying /\ r' = Copied
  | None => r' = r
  end ->
  touched a <> None ->
  pipe_inv r' p'.
Proof.
  intros [He Hf Ha] Hstep Hr Ht.
  destruct a as [ok | | o k | o | o k j | st | o bs | o];
    unfold pipe_step in Hstep; cbn [erase] in Hr;
    try (now destruct Ht);
    try (match type of Hstep with
         | (if ?c then _ else _) = _ =>
             destruct c eqn:Hcond; [| discriminate Hstep]
         end);
    injection Hstep as <-.
  - (* Moves *)
    subst r'. apply andb_prop in Hcond as [Hcond _].
    apply andb_prop in Hcond as [Hc _].
    destruct r; try discriminate Hc. split; cbn.
    + exact He.
    + intros H. rewrite He in H. discriminate H.
    + intros _. rewrite <- app_assoc, take_drop. apply Ha.
      rewrite He. discriminate.
  - (* SeesEOF *)
    destruct Hr as [-> ->]. apply andb_prop in Hcond as [Hcl Hq].
    split; cbn.
    + discriminate.
    + intros _. split; [| exact Hcl].
      apply Nat.eqb_eq in Hq. now destruct (queued p).
    + intros _. apply Ha. rewrite He. discriminate.
  - (* CopyFails *)
    destruct Hr as [-> ->]. split; cbn.
    + discriminate.
    + discriminate.
    + intros H. now destruct H.
  - (* RemoteWrites *)
    subst r'. apply andb_prop in Hcond as [_ Hcl].
    apply negb_true_iff in Hcl. split; cbn.
    + exact He.
    + intros H. destruct (Hf H) as [_ Hc]. congruence.
    + intros H. rewrite (Ha H). now rewrite app_assoc.
  - (* RemoteCloses *)
    subst r'. split; cbn.
    + exact He.
    + intros H. destruct (Hf H) as [Hq _]. now split.
    + exact Ha.
Qed.

Lemma inv_init_output (cmd : Cmd) : inv cmd init.
Proof.
  split; [apply ProcessFacts.inv_init | |];
    (split; cbn; [reflexivity | discriminate | reflexivity]).
Qed.

(** An action on a pipe: the step of the pipe, the step of the process
    model under it, and the other pipe left alone. *)
Lemma step_on_pipe (cmd : Cmd) (a : action) (o : ostream) (s s' : state) :
  touched a = Some o ->
  step cmd a s = Some s' ->
  exists p' b',
    pipe_step a (copying (relay_of (base s) (stream_of o)))
              (command_started (base s)) (pipe_of s o) = Some p' /\
    s' = set_pipe o p' (set_base b' s) /\
    match erase a with
    | Some pa => Process.step cmd pa (base s) = Some b'
    | None => b' = base s
    end.
Proof.
  intros Ht Hstep. unfold step in Hstep. rewrite Ht in Hstep.
  destruct (erase a) as [pa|].
  - destruct (Process.step cmd pa (base s)) as [b'|]; [| discriminate Hstep].
    destruct (pipe_step a _ _ _) as [p'|]; [| discriminate Hstep].
    injection Hstep as <-. now exists p', b'.
  - destruct (pipe_step a _ _ _) as [p'|]; [| discriminate Hstep].
    injection Hstep as <-. now exists p', (base s).
Qed.

(** An action of the process model alone. *)
Lemma step_off_pipes (cmd : Cmd) (a : action) (pa : Process.action)
    (s s' : state) :
  touched a = None -> erase a = Some pa ->
  step cmd a s = Some s' ->
  Process.step cmd pa (base s) = Some (base s') /\
  out s' = out s /\ err s' = err s.
Proof.
  intros Ht He Hstep. unfold step in Hstep. rewrite Ht, He in Hstep.
  destruct (Process.step cmd pa (base s)) as [b'|]; [| discriminate Hstep].
  injection Hstep as <-. now repeat split.
Qed.

(** Every enabled action keeps the invariant. *)
Lemma inv_step_output (cmd : Cmd) (a : action) (s s' : state) :
  inv cmd s -> step cmd a s = Some s' -> inv cmd s'.
Proof.
  intros [Hb Ho He] Hstep.
  destruct (touched a) as [o|] eqn:Ht.
  - destruct (step_on_pipe cmd a o s s' Ht Hstep) as (p' & b' & Hp & -> & Hbase).
    assert (Hrel : match erase a with
                   | Some _ =>
                       relay_of (base s) (stream_of o) = Copying /\
                       relay_of b' (stream_of o) = Copied
                   | None => relay_of b' (stream_of o)
                             = relay_of (base s) (stream_of o)
                   end).
    { destruct a; try discriminate Ht; cbn [touched erase] in Ht, Hbase |- *;
        injection Ht as ->;
        first [ now rewrite Hbase
              | destruct (copy_returns_relays cmd _ _ _ Hbase) as (H1 & H2 & _);
                now split ]. }
    assert (Hother : forall st, st <> stream_of o ->
                       relay_of b' st = relay_of (base s) st).
    { destruct a; try discriminate Ht; cbn [touched erase] in Ht, Hbase;
        injection Ht as ->;
        first [ intros st _; now rewrite Hbase
              | destruct (copy_returns_relays cmd _ _ _ Hbase) as (_ & _ & H3);
                exact H3 ]. }
    assert (Hb' : Process.inv cmd b').
    { destruct (erase a) as [pa|].
      - exact (ProcessFacts.inv_step cmd pa (base s) b' Hb Hbase).
      - now rewrite Hbase. }
    assert (Hto : touched a <> None) by (rewrite Ht; discriminate).
    destruct o; cbn [stream_of] in *; split; cbn; try exact Hb'.
    + eapply (pipe_step_inv a (stdout_relay (base s))); eauto.
    + change (stderr_relay b') with (relay_of b' StderrS).
      rewrite (Hother StderrS) by discriminate. exact He.
    + change (stdout_relay b') with (relay_of b' StdoutS).
      rewrite (Hother StdoutS) by discriminate. exact Ho.
    + eapply (pipe_step_inv a (stderr_relay (base s))); eauto.
  - assert (Hpa : exists pa, erase a = Some pa)
      by (destruct a; try discriminate Ht; cbn; eauto).
    destruct Hpa as [pa Hpa].
    destruct (step_off_pipes cmd a pa s s' Ht Hpa Hstep) as (Hbase & Eo & Ee).
    pose proof (ProcessFacts.inv_step cmd pa (base s) (base s') Hb Hbase) as Hb'.
    split; [exact Hb' | rewrite Eo | rewrite Ee].
    + change (pipe_inv (relay_of (base s') StdoutS) (out s)).
      destruct a; try discriminate Ht; cbn in Hpa; injection Hpa as <-.
      * eapply pipe_inv_spawn; [exact Ho |].
        apply (caller_step_relays cmd ok (base s) (base s') Hb Hbase StdoutS).
      * destruct (copy_returns_relays cmd _ _ _ Hbase) as (_ & _ & H3).
        rewrite (H3 StdoutS) by discriminate. exact Ho.
      * destruct (relay_exits_relays cmd _ _ _ Hbase) as (H1 & H2 & H3).
        destruct st; [rewrite (H3 StdoutS) by discriminate; exact Ho
                     | | rewrite (H3 StdoutS) by discriminate; exact Ho].
        rewrite H2. apply pipe_inv_exit.
        change (pipe_inv (relay_of (base s) StdoutS) (out s)) in Ho.
        now rewrite H1 in Ho.
    + change (pipe_inv (relay_of (base s') StderrS) (err s)).
      destruct a; try discriminate Ht; cbn in Hpa; injection Hpa as <-.
      * eapply pipe_inv_spawn; [exact He |].
        apply (caller_step_relays cmd ok (base s) (base s') Hb Hbase StderrS).
      * destruct (copy_returns_relays cmd _ _ _ Hbase) as (_ & _ & H3).
        rewrite (H3 StderrS) by discriminate. exact He.
      * destruct (relay_exits_relays cmd _ _ _ Hbase) as (H1 & H2 & H3).
        destruct st; [rewrite (H3 StderrS) by discriminate; exact He
                     | rewrite (H3 StderrS) by discriminate; exact He |].
        rewrite H2. apply pipe_inv_exit.
        change (pipe_inv (relay_of (base s) StderrS) (err s)) in He.
        now rewrite H1 in He.
Qed.

Lemma inv_reachable_output (cmd : Cmd) (tr : list action) (s : state) :
  run cmd tr init = Some s -> inv cmd s.
Proof.
  assert (H : forall s0, inv cmd s0 -> run cmd tr s0 = Some s -> inv cmd s).
  { induction tr as [|a tr IH]; intros s0 H0 Hrun; cbn in Hrun.
    - now injection Hrun as <-.
    - destruct (step cmd a s0) as [s1|] eqn:Hs; [| discriminate].
      eapply IH; [eapply inv_step_output; eassumption | exact Hrun]. }
  apply H, inv_init_output.
Qed.

(** C2, as stated, fails: the caller's stream refuses the line the command
    wrote, [io.Copy] returns an error that the relay discards, and [Wait]
    returns with the relay finished although it has not seen the end of the
    data and the line was dropped. *)
Lemma wait_output_counterexample :
  run cmdStdout scheduleRefused init
    = Some (mkState
              (Process.mkState pcWaitReturned true true 0 Absent Finished Absent)
              (mkPipe hiLine [] [] true (Some CopyFailed))
              emptyPipe) /\
  ~ (forall cmd tr s,
       run cmd tr init = Some s ->
       at_pc (base s) = pcWaitReturned ->
       supplied cmd StdoutS = true ->
       ended (out s) = Some SawEOF /\ delivered (out s) = written (out s)).
Proof.
  assert (Hrun : run cmdStdout scheduleRefused init
                 = Some (mkState
                           (Process.mkState pcWaitReturned true true 0
                                            Absent Finished Absent)
                           (mkPipe hiLine [] [] true (Some CopyFailed))
                           emptyPipe))
    by (vm_compute; reflexivity).
  split; [exact Hrun |].
  intros H.
  destruct (H cmdStdout scheduleRefused _ Hrun eq_refl eq_refl) as [Hend _].
  discriminate Hend.
Qed.

(** C2, amended: in every state a schedule can reach in which [Wait] has
    returned, the relay of every supplied stdout or stderr stream has run to
    its end: its [io.Copy] has returned, on the end of the data or on an
    error, and it has called [p.wg.Done()].  When the [io.Copy] returned on
    the end of the data, the caller's stream has taken everything the
    remote command wrote to the stream, in order, and nothing waits in the
    pipe. *)
Theorem wait_returns_after_copies
    (cmd : Cmd) (tr : list action) (s : state) (o : ostream) :
  run cmd tr init = Some s ->
  at_pc (base s) = pcWaitReturned ->
  supplied cmd (stream_of o) = true ->
  relay_of (base s) (stream_of o) = Finished /\
  (ended (pipe_of s o) = Some SawEOF \/ ended (pipe_of s o) = Some CopyFailed) /\
  (ended (pipe_of s o) = Some SawEOF ->
     delivered (pipe_of s o) = written (pipe_of s o) /\
     queued (pipe_of s o) = []).
Proof.
  intros Hrun Hpc Hsup.
  destruct (inv_reachable_output cmd tr s Hrun) as [Hb Ho He].
  assert (Hfin : relay_of (base s) (stream_of o) = Finished).
  { destruct Hb as [Hwg _ Hout Herr _ _ Hret].
    specialize (Hret Hpc). rewrite Hpc in Hout, Herr. cbn in Hout, Herr.
    destruct o; cbn in Hsup |- *.
    - rewrite Hsup in Hout.
      destruct (stdout_relay (base s)), (stderr_relay (base s)); cbn in *;
        try reflexivity; try discriminate; lia.
    - rewrite Hsup in Herr.
      destruct (stdout_relay (base s)), (stderr_relay (base s)); cbn in *;
        try reflexivity; try discriminate; lia. }
  split; [exact Hfin |].
  assert (Hp : pipe_inv Finished (pipe_of s o)).
  { rewrite <- Hfin. now destruct o. }
  destruct Hp as [Hended Heof Hall]. split.
  - destruct (ended (pipe_of s o)) as [[|]|]; auto. now destruct Hended.
  - intros H. destruct (Heof H) as [Hq _]. split; [| exact Hq].
    rewrite Hall, Hq, app_nil_r; [reflexivity |]. rewrite H. discriminate.
Qed.

Lemma wait_returns_after_copies_witness :
  run cmdStdout scheduleCopied init
    = Some (mkState
              (Process.mkState pcWaitReturned true true 0 Absent Finished Absent)
              (mkPipe hiLine [] hiLine true (Some SawEOF))
              emptyPipe) /\
  relay_of (Process.mkState pcWaitReturned true true 0 Absent Finished Absent)
           (stream_of Out) = Finished /\
  (ended (mkPipe hiLine [] hiLine true (Some SawEOF)) = Some SawEOF
   \/ ended (mkPipe hiLine [] hiLine true (Some SawEOF)) = Some CopyFailed) /\
  (ended (mkPipe hiLine [] hiLine true (Some SawEOF)) = Some SawEOF ->
     delivered (mkPipe hiLine [] hiLine true (Some SawEOF))
     = written (mkPipe hiLine [] hiLine true (Some SawEOF)) /\
     queued (mkPipe hiLine [] hiLine true (Some SawEOF)) = []).
Proof.
  split; [vm_compute; reflexivity |].
  apply (wait_returns_after_copies cmdStdout scheduleCopied
           (mkState
              (Process.mkState pcWaitReturned true true 0 Absent Finished Absent)
              (mkPipe hiLine [] hiLine true (Some SawEOF))
              emptyPipe)
           Out);
    vm_compute; reflexivity.
Defined.

End OutputFacts.
